(** * context_logger: a shallow embedding of [context_logger/__init__.py]

    The module keeps a stack of counters per logger ([nlist]), lets the text
    of a message open or close a nesting level (a trailing or a leading
    colon), hands every logged line to a sink ([log_function]) and installs
    loggers as the ambient one through a context variable.

    The embedding follows the Python file, the indent strategies and
    [class Logger] first, the decorator that uses them last.  List objects
    and [Logger] objects live in stores and are named by their position, so
    that object identity (which [nlist] two loggers hold) is part of the
    model; a raising statement keeps the mutations made before it.  Sinks
    are known by what they are called with; integers are unbounded, as in
    Python. *)

From Stdlib Require Import ZArith String Ascii DecimalString Lia.
From stdpp Require Import base option list strings gmap.

Local Open Scope Z_scope.
Local Open Scope string_scope.

(** ** Python values that serve as messages *)

(** The built-in data values a caller passes as a message or as an argument
    of an instrumented function.  Callables are kept apart (see
    [MessageOrFunc] below). *)
#[warnings="-register-all"]
Inductive pyval : Type :=
| VNone
| VBool (b : bool)
| VInt (z : Z)
| VStr (s : string)
| VBytes (s : string)
| VList (vs : list pyval).

Inductive exn : Type :=
| IndexError
| AttributeError (attr : string)
| TypeError
| Raised (what : string)
(* not a Python exception: the answer of the model to a reference that
   points outside the store, which no Python program can hold *)
| DanglingReference.

Definition is_str (v : pyval) : bool :=
  match v with VStr _ => true | _ => false end.

(** [bool(v)] *)
Definition truthy (v : pyval) : bool :=
  match v with
  | VNone => false
  | VBool b => b
  | VInt z => negb (Z.eqb z 0)
  | VStr s => negb (String.eqb s "")
  | VBytes s => negb (String.eqb s "")
  | VList vs => match vs with [] => false | _ => true end
  end.

(** ** String primitives *)

(** [s.startswith(":")] and [s.endswith(":")] on a [str]. *)
Definition str_startswith_colon (s : string) : bool :=
  match s with
  | String c _ => Ascii.eqb c ":"%char
  | EmptyString => false
  end.

Fixpoint str_endswith_colon (s : string) : bool :=
  match s with
  | EmptyString => false
  | String c EmptyString => Ascii.eqb c ":"%char
  | String _ rest => str_endswith_colon rest
  end.

(** [s[1:]] *)
Definition str_drop_first (s : string) : string :=
  match s with
  | String _ rest => rest
  | EmptyString => EmptyString
  end.

(** [s[:-1]] *)
Fixpoint str_drop_last (s : string) : string :=
  match s with
  | EmptyString => EmptyString
  | String _ EmptyString => EmptyString
  | String c rest => String c (str_drop_last rest)
  end.

(** [s * n]: a count below one gives the empty string. *)
Definition str_repeat (s : string) (n : Z) : string :=
  String.concat "" (replicate (Z.to_nat n) s).

(** [f"{number}"] for an [int]. *)
Definition str_of_int (z : Z) : string :=
  NilZero.string_of_int (Z.to_int z).

(** ** Indent strategies (lines 48-74) *)

Inductive BaseIndent : Type :=
| NoneIndent
| SpaceIndent (char : string)
| NumberedIndent.

(** [indent(nlist)], the [__call__] of the three classes. *)
Definition indent_call (self : BaseIndent) (nlist : list Z) : string :=
  match self with
  | NoneIndent => ""
  | SpaceIndent char => str_repeat char (Z.of_nat (length nlist) - 1)
  | NumberedIndent =>
      String.concat "" (map (fun number => str_of_int number ++ ". ") nlist)
  end.

Definition STD_NONE_INDENT : BaseIndent := NoneIndent.
Definition STD_SPACE_INDENT : BaseIndent := SpaceIndent " ".
Definition STD_NUMBERED_INDENT : BaseIndent := NumberedIndent.

(** ** Objects and the store *)

(** A sink ([log_function]) is known by its identity; every invocation is
    recorded with the arguments it received, the list argument by its
    contents at the time of the call. *)
Inductive LogFunction : Type :=
| std_log_function
| other_log_function (name : string).

Record SinkCall : Type := mkSinkCall {
  sc_function : LogFunction;
  sc_message : string;
  sc_prefix : string;
  sc_nlist : list Z;
  sc_indent : BaseIndent
}.

(** A [Logger] object.  [nlist] is a reference to a list object;
    [prev_logger] is only annotated by [__init__] and exists as an
    attribute once [__enter__] has run. *)
Record Logger : Type := mkLogger {
  log_function : LogFunction;
  prefix : string;
  nlist : nat;
  indent_type : BaseIndent;
  prev_logger : option nat
}.

Record World : Type := mkWorld {
  lists : list (list Z);
  loggers : list Logger;
  logger_contextvar : nat;
  calls : list SinkCall;
  stdout : list string
}.

(** ** Statements: state, and an outcome that is a value or a raise *)

Inductive outcome (A : Type) : Type :=
| Return (a : A)
| Raise (e : exn).

Arguments Return {A} a.
Arguments Raise {A} e.

Definition M (A : Type) : Type := World -> World * outcome A.

Definition ret {A} (a : A) : M A := fun w => (w, Return a).

Definition raise {A} (e : exn) : M A := fun w => (w, Raise e).

Definition bind {A B} (m : M A) (k : A -> M B) : M B :=
  fun w =>
    match m w with
    | (w', Return a) => k a w'
    | (w', Raise e) => (w', Raise e)
    end.

Declare Scope py_scope.
Delimit Scope py_scope with py.
Notation "x <- c1 ;; c2" := (bind c1 (fun x => c2))
  (at level 100, c1 at next level, right associativity) : py_scope.
Notation "c1 ;;; c2" := (bind c1 (fun _ => c2))
  (at level 100, right associativity) : py_scope.
Local Open Scope py_scope.

Definition read_logger (self : nat) : M Logger :=
  fun w =>
    match loggers w !! self with
    | Some l => (w, Return l)
    | None => (w, Raise DanglingReference)
    end.

Definition write_logger (self : nat) (l : Logger) : M unit :=
  fun w =>
    (mkWorld (lists w) (<[self := l]> (loggers w)) (logger_contextvar w)
       (calls w) (stdout w), Return tt).

Definition new_logger (l : Logger) : M nat :=
  fun w =>
    (mkWorld (lists w) (loggers w ++ [l]) (logger_contextvar w)
       (calls w) (stdout w), Return (length (loggers w))).

Definition read_list (r : nat) : M (list Z) :=
  fun w =>
    match lists w !! r with
    | Some ns => (w, Return ns)
    | None => (w, Raise DanglingReference)
    end.

Definition set_list (r : nat) (ns : list Z) (w : World) : World :=
  mkWorld (<[r := ns]> (lists w)) (loggers w) (logger_contextvar w)
    (calls w) (stdout w).

Definition write_list (r : nat) (ns : list Z) : M unit :=
  fun w => (set_list r ns w, Return tt).

Definition new_list (ns : list Z) : M nat :=
  fun w =>
    (mkWorld (lists w ++ [ns]) (loggers w) (logger_contextvar w)
       (calls w) (stdout w), Return (length (lists w))).

(** [get_current_logger()] and [logger_contextvar.set(l)] *)
Definition get_current_logger : M nat :=
  fun w => (w, Return (logger_contextvar w)).

Definition logger_contextvar_set (l : nat) : M unit :=
  fun w =>
    (mkWorld (lists w) (loggers w) l (calls w) (stdout w), Return tt).

(** ** The default sink (lines 77-78) *)

Definition std_log_line (message prefix : string) (ns : list Z)
    (indent : BaseIndent) : string :=
  (if negb (String.eqb prefix "") then "[" ++ prefix ++ "] " else "")
  ++ indent_call indent ns ++ message.

(** Calling [self.log_function(message, self.prefix, self.nlist,
    self.indent_type)]: the call is recorded, and the default sink prints
    its line. *)
Definition call_log_function (f : LogFunction) (message prefix : string)
    (ns : list Z) (indent : BaseIndent) : M unit :=
  fun w =>
    (mkWorld (lists w) (loggers w) (logger_contextvar w)
       (calls w ++ [mkSinkCall f message prefix ns indent])
       (match f with
        | std_log_function =>
            stdout w ++ [std_log_line message prefix ns indent]
        | other_log_function _ => stdout w
        end),
     Return tt).

(** ** class Logger (lines 81-126) *)

(** [Logger(prefix, log_function, indent, nlist=...)]: a list that is
    passed in is kept as it is, by reference; without one a new [[0]] is
    made. *)
Definition Logger_init (prefix : string) (log_function : LogFunction)
    (indent : BaseIndent) (nlist : option nat) : M nat :=
  r <- match nlist with
       | Some r => ret r
       | None => new_list [0]
       end ;;
  new_logger (mkLogger log_function prefix r indent None).

(** [self.nlist.append(0)] *)
Definition Logger_indent (self : nat) : M unit :=
  l <- read_logger self ;;
  ns <- read_list (nlist l) ;;
  write_list (nlist l) (ns ++ [0]).

(** [del self.nlist[-1]] *)
Definition Logger_deindent (self : nat) : M unit :=
  l <- read_logger self ;;
  ns <- read_list (nlist l) ;;
  match ns with
  | [] => raise IndexError
  | _ => write_list (nlist l) (removelast ns)
  end.

(** [return Logger(self.prefix, self.log_function, nlist=self.nlist + [0],
    indent=self.indent_type)]: [+] builds a new list object. *)
Definition Logger_copy (self : nat) : M nat :=
  l <- read_logger self ;;
  ns <- read_list (nlist l) ;;
  r <- new_list (ns ++ [0]) ;;
  Logger_init (prefix l) (log_function l) (indent_type l) (Some r).

(** [self.nlist[-1] += 1] *)
Definition incr_last (self : nat) : M unit :=
  l <- read_logger self ;;
  ns <- read_list (nlist l) ;;
  match last ns with
  | None => raise IndexError
  | Some x => write_list (nlist l) (removelast ns ++ [x + 1])
  end.

(** [message.startswith(":")]: [str] answers, [bytes] rejects the [str]
    argument, the other values have no such attribute. *)
Definition startswith_colon (message : pyval) : M bool :=
  match message with
  | VStr s => ret (str_startswith_colon s)
  | VBytes _ => raise TypeError
  | _ => raise (AttributeError "startswith")
  end.

(** [Logger.log], lines 98-114.  Past line 100 the message is a [str],
    the only kind of value whose [startswith] accepts [":"]. *)
Definition Logger_log (self : nat) (message : pyval) : M nat :=
  incr_last self ;;;
  b <- startswith_colon message ;;
  match message with
  | VStr s =>
      message <- (if b
                  then Logger_deindent self ;;; ret (str_drop_first s)
                  else ret s) ;;
      let end_indent := is_str (VStr message) && str_endswith_colon message in
      let message := if end_indent then str_drop_last message else message in
      (if truthy (VStr message) && negb (String.eqb message " ")
       then l <- read_logger self ;;
            ns <- read_list (nlist l) ;;
            call_log_function (log_function l) message (prefix l) ns
              (indent_type l)
       else ret tt) ;;;
      (if end_indent then Logger_indent self else ret tt) ;;;
      Logger_copy self
  | _ => raise TypeError
  end.

(** [__enter__] and [__exit__], lines 119-126. *)
Definition Logger_enter (self : nat) : M unit :=
  l <- read_logger self ;;
  cur <- get_current_logger ;;
  write_logger self
    (mkLogger (log_function l) (prefix l) (nlist l) (indent_type l)
       (Some cur)) ;;;
  logger_contextvar_set self.

Definition Logger_exit (self : nat) : M unit :=
  Logger_deindent self ;;;
  l <- read_logger self ;;
  match prev_logger l with
  | Some p => logger_contextvar_set p
  | None => raise (AttributeError "prev_logger")
  end.

(** [def log(message)], lines 44-45 *)
Definition log (message : pyval) : M nat :=
  cur <- get_current_logger ;;
  Logger_log cur message.

(** [with mgr: body].  [__exit__] returns [None], so a raise of the body
    is raised again once [__exit__] has returned; a raise of [__exit__]
    itself takes the place of whatever the body did. *)
Definition with_logger {A} (mgr : nat) (body : M A) : M A :=
  Logger_enter mgr ;;;
  fun w =>
    match body w with
    | (w', Return a) => (Logger_exit mgr ;;; ret a) w'
    | (w', Raise e) => (Logger_exit mgr ;;; raise e) w'
    end.

(** The module's globals, lines 129-131: [global_logger = Logger("GLOBAL")]
    and a context variable whose default is that logger. *)
Definition empty_world : World := mkWorld [] [] 0%nat [] [].

Definition initial_world : World :=
  fst (Logger_init "GLOBAL" std_log_function STD_SPACE_INDENT None empty_world).

Definition global_logger : nat := 0%nat.

(** ** log_decorator (lines 7-41) *)

(** The argument of [log_decorator]: a message, or a callable that is
    given the assigned arguments and returns the message. *)
Inductive MessageOrFunc : Type :=
| Message (v : pyval)
| MessageFunc (f : gmap string pyval -> M pyval).


(** A function under decoration: the names [inspect.getfullargspec] lists
    first, whether it is a coroutine function, and what a call does. *)
Record Func : Type := mkFunc {
  func_args : list string;
  iscoroutinefunction : bool;
  func_call : list pyval -> gmap string pyval -> M pyval
}.

(** [{key: value for key, value in pairs}]: a later pair overwrites. *)
Definition dict_of_pairs (pairs : list (string * pyval)) : gmap string pyval :=
  foldl (fun d kv => <[kv.1 := kv.2]> d) ∅ pairs.

(** [d1 | d2]: the entries of [d2] win. *)
Definition dict_or (d1 d2 : gmap string pyval) : gmap string pyval :=
  d2 ∪ d1.

Definition assigned_args (func_args : list string) (args : list pyval)
    (kwargs : gmap string pyval) : gmap string pyval :=
  dict_or (dict_of_pairs (zip func_args args)) kwargs.

(** The wrapper of a plain function, lines 28-37. *)
Definition wrapper (message_or_func : MessageOrFunc) (decorated_func : Func)
    (args : list pyval) (kwargs : gmap string pyval) : M pyval :=
  message_ <- match message_or_func with
              | MessageFunc f =>
                  let func_args := func_args decorated_func in
                  f (assigned_args func_args args kwargs)
              | Message v => ret v
              end ;;
  mgr <- log message_ ;;
  with_logger mgr (func_call decorated_func args kwargs).

(** The wrapper of a coroutine function, lines 17-26; the awaited call is
    run to its end, without interleaving. *)
Definition async_wrapper (message_or_func : MessageOrFunc)
    (decorated_func : Func) (args : list pyval)
    (kwargs : gmap string pyval) : M pyval :=
  message_ <- match message_or_func with
              | MessageFunc f =>
                  let func_args := func_args decorated_func in
                  f (assigned_args func_args args kwargs)
              | Message v => ret v
              end ;;
  mgr <- log message_ ;;
  with_logger mgr (func_call decorated_func args kwargs).

Definition log_decorator (message_or_func : MessageOrFunc)
    (decorated_func : Func) : list pyval -> gmap string pyval -> M pyval :=
  if iscoroutinefunction decorated_func
  then async_wrapper message_or_func decorated_func
  else wrapper message_or_func decorated_func.

(** ** Notions used to state the properties *)

Local Open Scope list_scope.

(** The stack a logger holds. *)
Definition stack_of (w : World) (self : nat) : option (list Z) :=
  l ← loggers w !! self; lists w !! nlist l.

(** What is left of a message once the sigils are gone. *)
Definition after_leading (s : string) : string :=
  if str_startswith_colon s then str_drop_first s else s.

Definition has_trailing (s : string) : bool :=
  str_endswith_colon (after_leading s).

Definition stripped (s : string) : string :=
  if has_trailing s then str_drop_last (after_leading s) else after_leading s.

Definition suppressed (s : string) : bool :=
  String.eqb (stripped s) "" || String.eqb (stripped s) " ".

(** Several [log] calls in a row on one logger. *)
Fixpoint log_each (self : nat) (messages : list pyval) : M unit :=
  match messages with
  | [] => ret tt
  | m :: rest => Logger_log self m ;;; log_each self rest
  end.

(** Running a scratch session from the module's initial state. *)
Definition run {A} (m : M A) : World * outcome A := m initial_world.

(** The stack a message is rendered against, and the stack [log] leaves,
    for a logger that held [ns ++ [x]]. *)
Definition render_stack (ns : list Z) (x : Z) (s : string) : list Z :=
  if str_startswith_colon s then ns else ns ++ [x + 1].

Definition stack_after_log (ns : list Z) (x : Z) (s : string) : list Z :=
  if has_trailing s then render_stack ns x s ++ [0] else render_stack ns x s.

(** The sink calls one [log] adds. *)
Definition sink_calls_of (l : Logger) (ns : list Z) (x : Z) (s : string)
    : list SinkCall :=
  if suppressed s then []
  else [mkSinkCall (log_function l) (stripped s) (prefix l)
          (render_stack ns x s) (indent_type l)].

Definition printed_by (c : SinkCall) : list string :=
  match sc_function c with
  | std_log_function =>
      [std_log_line (sc_message c) (sc_prefix c) (sc_nlist c) (sc_indent c)]
  | other_log_function _ => []
  end.

(** Lines 108-109 and lines 104-114 of [Logger.log], cut out of
    [Logger_log] so that they can be run from any world. *)
Definition log_lines_108_109 (self : nat) (message : string) : M unit :=
  if truthy (VStr message) && negb (String.eqb message " ")
  then l <- read_logger self ;;
       ns <- read_list (nlist l) ;;
       call_log_function (log_function l) message (prefix l) ns (indent_type l)
  else ret tt.

Definition log_lines_104_114 (self : nat) (message : string) : M nat :=
  let end_indent := is_str (VStr message) && str_endswith_colon message in
  let message := if end_indent then str_drop_last message else message in
  log_lines_108_109 self message ;;;
  (if end_indent then Logger_indent self else ret tt) ;;;
  Logger_copy self.

Definition sink_call_of (l : Logger) (ns : list Z) (message : string)
    : list SinkCall :=
  if String.eqb message "" || String.eqb message " " then []
  else [mkSinkCall (log_function l) message (prefix l) ns (indent_type l)].

Definition no_sigil (s : string) : bool :=
  negb (str_startswith_colon s) && negb (str_endswith_colon s).

(** A logger two levels deep, numbered, that prints through the default
    sink; the sample state of the worked instances below. *)
Definition demo_logger : Logger :=
  mkLogger std_log_function "T" 0 NumberedIndent None.

Definition demo_world : World := mkWorld [[4; 7]] [demo_logger] 0 [] [].

(** An instrumented function that closes two levels and then fails. *)
Definition draining_func : Func :=
  mkFunc [] false
    (fun _ _ => log (VStr ":a") ;;; log (VStr ":b") ;;; raise (Raised "boom")).

(** The exception [message.startswith(":")] raises on a value that is not
    a [str]. *)
Definition startswith_error (v : pyval) : exn :=
  match v with
  | VBytes _ => TypeError
  | _ => AttributeError "startswith"
  end.

(** A message function that reports the argument bound to ["a"], and a
    function of two parameters to instrument with it. *)
Definition message_of_a (bound : gmap string pyval) : M pyval :=
  match bound !! "a"%string with
  | Some v => ret v
  | None => raise (Raised "KeyError")
  end.

Definition two_param_func : Func :=
  mkFunc ["a"%string; "b"%string] false (fun _ _ => ret VNone).

(** ** Notions used by the further properties *)

(** A statement that leaves the context variable as it found it, whatever
    the state it starts from and whether it returns or raises. *)
Definition keeps_ambient {A} (m : M A) : Prop :=
  ∀ w, logger_contextvar (fst (m w)) = logger_contextvar w.

(** Several calls of the module-level [log] in a row. *)
Fixpoint log_all (messages : list pyval) : M unit :=
  match messages with
  | [] => ret tt
  | m :: rest => log m ;;; log_all rest
  end.

(** Programs made of the two things user code does with the module: a
    line logged through the module-level [log], and a call of a function
    instrumented with a message, whose body is such a program again. *)
#[warnings="-register-all"]
Inductive item : Type :=
| Line (t : string)
| Call (s : string) (body : list item).

Definition run_items_with (run_item : item -> M unit)
    : list item -> M unit :=
  fix go (its : list item) : M unit :=
    match its with
    | [] => ret tt
    | it :: rest => run_item it ;;; go rest
    end.

Fixpoint run_item (it : item) : M unit :=
  match it with
  | Line t => log (VStr t) ;;; ret tt
  | Call s body =>
      log_decorator (Message (VStr s))
        (mkFunc [] false
           (fun _ _ => run_items_with run_item body ;;; ret VNone))
        [] ∅ ;;;
      ret tt
  end.

Definition run_items : list item -> M unit := run_items_with run_item.

(** Every message of the program is free of sigils. *)
Fixpoint plain (it : item) : bool :=
  match it with
  | Line t => no_sigil t
  | Call s body => no_sigil s && forallb plain body
  end.

(** The outline of a program: every message in the order of the program,
    each with the stack of an outline numbering.  [emit] says what one
    message with one stack gives; [stack] is the stack of the item, its
    own counter included; the items of a body are numbered from 1 one
    level below. *)
Definition outline_items_with
    (outline_item : list Z -> item -> list SinkCall) (stack : list Z)
    : Z -> list item -> list SinkCall :=
  fix go (k : Z) (its : list item) : list SinkCall :=
    match its with
    | [] => []
    | it :: rest => outline_item (stack ++ [k + 1]) it ++ go (k + 1) rest
    end.

Fixpoint outline_item (emit : list Z -> string -> list SinkCall)
    (stack : list Z) (it : item) : list SinkCall :=
  match it with
  | Line t => emit stack t
  | Call s body =>
      emit stack s ++ outline_items_with (outline_item emit) stack 0 body
  end.

Definition outline_items (emit : list Z -> string -> list SinkCall)
    : list Z -> Z -> list item -> list SinkCall :=
  outline_items_with (outline_item emit).

(** What running a statement does to a state in which the ambient logger
    [a] holds [stack ++ [k]]: it returns [res], [n] more messages have
    been counted at that level, [out] has reached the sink, the ambient
    logger is still [a], and nothing that existed before has changed
    otherwise. *)
Definition runs_to {A} (m : M A) (res : A) (w : World) (a : nat)
    (la : Logger) (stack : list Z) (k : Z) (n : nat) (out : list SinkCall)
    : Prop :=
  ∃ w',
    m w = (w', Return res)
    ∧ logger_contextvar w' = a
    ∧ (∀ i li, loggers w !! i = Some li → loggers w' !! i = Some li)
    ∧ (∀ r0 lr, r0 ≠ nlist la → lists w !! r0 = Some lr →
         lists w' !! r0 = Some lr)
    ∧ lists w' !! nlist la = Some (stack ++ [k + Z.of_nat n])
    ∧ calls w' = calls w ++ out.

(** * Proofs *)

(** ** Worked examples *)

Example numbered_negative : indent_call NumberedIndent [-4; 10] = "-4. 10. ".
Proof. reflexivity. Qed.

Example space_on_empty_stack : indent_call (SpaceIndent "ab") [] = "".
Proof. reflexivity. Qed.

Example space_two_chars : indent_call (SpaceIndent "ab") [0; 0; 0] = "abab".
Proof. reflexivity. Qed.

Example initial_world_is :
  initial_world
  = mkWorld [[0]] [mkLogger std_log_function "GLOBAL" 0%nat (SpaceIndent " ") None]
      global_logger [] [].
Proof. reflexivity. Qed.

Example session_numbered :
  stdout (fst (run (log (VStr "a:") ;;; log (VStr "b") ;;; log (VStr ":c") ;;; log (VStr "d"))))
  = ["[GLOBAL] a"; "[GLOBAL]  b"; "[GLOBAL] c"; "[GLOBAL] d"].
Proof. reflexivity. Qed.

Example session_stack :
  stack_of (fst (run (log (VStr "a:") ;;; log (VStr "b") ;;; log (VStr ":c") ;;; log (VStr "d"))))
    global_logger
  = Some [2].
Proof. reflexivity. Qed.

(** ** The store *)

Lemma stack_of_Some w self ns :
  stack_of w self = Some ns ↔
  ∃ l, loggers w !! self = Some l ∧ lists w !! nlist l = Some ns.
Proof.
  unfold stack_of. split.
  - destruct (loggers w !! self) as [l|] eqn:E; simpl; [eauto | discriminate].
  - intros (l & -> & H). exact H.
Qed.

Lemma set_list_lookup w r ns ns0 :
  lists w !! r = Some ns0 → lists (set_list r ns w) !! r = Some ns.
Proof.
  intros H. simpl. apply list_lookup_insert_eq. by eapply lookup_lt_Some.
Qed.

Lemma set_list_twice w r a b :
  set_list r a (set_list r b w) = set_list r a w.
Proof. unfold set_list. simpl. by rewrite list_insert_insert_eq. Qed.

Lemma removelast_snoc {A} (l : list A) x : removelast (l ++ [x]) = l.
Proof. apply removelast_last. Qed.

(** ** One statement at a time *)

Lemma incr_last_run w self l ns x :
  loggers w !! self = Some l → lists w !! nlist l = Some (ns ++ [x]) →
  incr_last self w = (set_list (nlist l) (ns ++ [x + 1]) w, Return tt).
Proof.
  intros Hl Hns. unfold incr_last, bind, read_logger, read_list.
  rewrite Hl, Hns, last_snoc, removelast_snoc. reflexivity.
Qed.

Lemma incr_last_empty w self l :
  loggers w !! self = Some l → lists w !! nlist l = Some [] →
  incr_last self w = (w, Raise IndexError).
Proof.
  intros Hl Hns. unfold incr_last, bind, read_logger, read_list.
  by rewrite Hl, Hns.
Qed.

Lemma Logger_deindent_run w self l ns x :
  loggers w !! self = Some l → lists w !! nlist l = Some (ns ++ [x]) →
  Logger_deindent self w = (set_list (nlist l) ns w, Return tt).
Proof.
  intros Hl Hns. unfold Logger_deindent, bind, read_logger, read_list.
  rewrite Hl, Hns. destruct (ns ++ [x]) eqn:E.
  - by destruct ns.
  - rewrite <- E, removelast_snoc. reflexivity.
Qed.

Lemma Logger_deindent_empty w self l :
  loggers w !! self = Some l → lists w !! nlist l = Some [] →
  Logger_deindent self w = (w, Raise IndexError).
Proof.
  intros Hl Hns. unfold Logger_deindent, bind, read_logger, read_list.
  by rewrite Hl, Hns.
Qed.

Lemma Logger_indent_run w self l ns :
  loggers w !! self = Some l → lists w !! nlist l = Some ns →
  Logger_indent self w = (set_list (nlist l) (ns ++ [0]) w, Return tt).
Proof.
  intros Hl Hns. unfold Logger_indent, bind, read_logger, read_list.
  by rewrite Hl, Hns.
Qed.

Lemma Logger_copy_run w self l ns :
  loggers w !! self = Some l → lists w !! nlist l = Some ns →
  Logger_copy self w
  = (mkWorld (lists w ++ [ns ++ [0]])
       (loggers w
        ++ [mkLogger (log_function l) (prefix l) (length (lists w))
              (indent_type l) None])
       (logger_contextvar w) (calls w) (stdout w),
     Return (length (loggers w))).
Proof.
  intros Hl Hns. unfold Logger_copy, bind, read_logger, read_list.
  by rewrite Hl, Hns.
Qed.

(** ** [Logger.log] on a [str], in one equation *)

Lemma Logger_log_unfold self s :
  Logger_log self (VStr s)
  = (incr_last self ;;;
     message <- (if str_startswith_colon s
                 then Logger_deindent self ;;; ret (str_drop_first s)
                 else ret s) ;;
     log_lines_104_114 self message).
Proof. reflexivity. Qed.

Lemma log_lines_108_109_run w self l ns message :
  loggers w !! self = Some l → lists w !! nlist l = Some ns →
  log_lines_108_109 self message w
  = (mkWorld (lists w) (loggers w) (logger_contextvar w)
       (calls w ++ sink_call_of l ns message)
       (stdout w ++ flat_map printed_by (sink_call_of l ns message)),
     Return tt).
Proof.
  intros Hl Hns. unfold log_lines_108_109, sink_call_of, truthy.
  destruct (String.eqb message "") ; destruct (String.eqb message " ");
    simpl.
  1-3: unfold ret; rewrite !app_nil_r; by destruct w.
  unfold bind, read_logger, read_list, call_log_function.
  rewrite Hl, Hns. unfold printed_by. simpl.
  destruct (log_function l); simpl; by rewrite ?app_nil_r.
Qed.

Lemma log_lines_104_114_run w self l ns message :
  loggers w !! self = Some l → lists w !! nlist l = Some ns →
  let end_indent := str_endswith_colon message in
  let core := if end_indent then str_drop_last message else message in
  let final := if end_indent then ns ++ [0] else ns in
  log_lines_104_114 self message w
  = (mkWorld
       (<[nlist l := final]> (lists w) ++ [final ++ [0]])
       (loggers w
        ++ [mkLogger (log_function l) (prefix l) (length (lists w))
              (indent_type l) None])
       (logger_contextvar w)
       (calls w ++ sink_call_of l ns core)
       (stdout w ++ flat_map printed_by (sink_call_of l ns core)),
     Return (length (loggers w))).
Proof.
  intros Hl Hns end_indent core final.
  assert (Hlt : (nlist l < length (lists w))%nat) by by eapply lookup_lt_Some.
  unfold log_lines_104_114. simpl is_str. rewrite andb_true_l.
  fold end_indent. fold core.
  unfold bind at 1. rewrite (log_lines_108_109_run _ _ _ _ _ Hl Hns).
  set (w1 := mkWorld _ _ _ _ _).
  assert (Hl1 : loggers w1 !! self = Some l) by exact Hl.
  assert (Hns1 : lists w1 !! nlist l = Some ns) by exact Hns.
  unfold bind at 1. subst final. destruct end_indent.
  - rewrite (Logger_indent_run _ _ _ _ Hl1 Hns1).
    erewrite Logger_copy_run;
      [ | exact Hl1 | eapply set_list_lookup; exact Hns1 ].
    subst w1. simpl. by rewrite length_insert.
  - unfold ret at 1.
    rewrite (Logger_copy_run _ _ _ _ Hl1 Hns1).
    subst w1. simpl. rewrite list_insert_id by exact Hns. reflexivity.
Qed.

Lemma Logger_log_run w self l ns x s :
  loggers w !! self = Some l → lists w !! nlist l = Some (ns ++ [x]) →
  Logger_log self (VStr s) w
  = (mkWorld
       (<[nlist l := stack_after_log ns x s]> (lists w)
        ++ [stack_after_log ns x s ++ [0]])
       (loggers w
        ++ [mkLogger (log_function l) (prefix l) (length (lists w))
              (indent_type l) None])
       (logger_contextvar w)
       (calls w ++ sink_calls_of l ns x s)
       (stdout w ++ flat_map printed_by (sink_calls_of l ns x s)),
     Return (length (loggers w))).
Proof.
  intros Hl Hns.
  rewrite Logger_log_unfold.
  unfold bind at 1. rewrite (incr_last_run _ _ _ _ _ Hl Hns).
  set (w1 := set_list (nlist l) (ns ++ [x + 1]) w).
  assert (Hl1 : loggers w1 !! self = Some l) by exact Hl.
  assert (Hns1 : lists w1 !! nlist l = Some (ns ++ [x + 1]))
    by (eapply set_list_lookup; exact Hns).
  unfold sink_calls_of, stack_after_log, suppressed, stripped, has_trailing,
    render_stack, after_leading.
  unfold bind at 1.
  destruct (str_startswith_colon s) eqn:Hlead.
  - unfold bind at 1.
    rewrite (Logger_deindent_run _ _ _ _ _ Hl1 Hns1).
    subst w1. rewrite set_list_twice. unfold ret at 1.
    erewrite log_lines_104_114_run;
      [ | exact Hl | eapply set_list_lookup; exact Hns ].
    unfold sink_call_of. simpl. by rewrite list_insert_insert_eq, length_insert.
  - unfold ret at 1.
    rewrite (log_lines_104_114_run _ _ _ _ _ Hl1 Hns1).
    unfold sink_call_of. subst w1. simpl.
    by rewrite list_insert_insert_eq, length_insert.
Qed.

(** What a [log] of a [str] leaves behind, read off the store. *)
Lemma Logger_log_post w self l ns x s :
  loggers w !! self = Some l → lists w !! nlist l = Some (ns ++ [x]) →
  ∃ w',
    Logger_log self (VStr s) w = (w', Return (length (loggers w)))
    ∧ loggers w' !! self = Some l
    ∧ lists w' !! nlist l = Some (stack_after_log ns x s)
    ∧ calls w' = calls w ++ sink_calls_of l ns x s
    ∧ stdout w' = stdout w ++ flat_map printed_by (sink_calls_of l ns x s)
    ∧ logger_contextvar w' = logger_contextvar w
    ∧ loggers w' !! length (loggers w)
      = Some (mkLogger (log_function l) (prefix l) (length (lists w))
                (indent_type l) None)
    ∧ lists w' !! length (lists w) = Some (stack_after_log ns x s ++ [0]).
Proof.
  intros Hl Hns.
  assert (Hlt : (nlist l < length (lists w))%nat) by by eapply lookup_lt_Some.
  eexists. split; [by apply Logger_log_run | simpl].
  repeat split.
  - rewrite lookup_app_l by by eapply lookup_lt_Some. exact Hl.
  - rewrite lookup_app_l by by rewrite length_insert.
    by apply list_lookup_insert_eq.
  - by rewrite list_lookup_middle.
  - apply list_lookup_middle. by rewrite length_insert.
Qed.

Lemma no_sigil_stack ns x s :
  no_sigil s = true → stack_after_log ns x s = ns ++ [x + 1].
Proof.
  unfold no_sigil, stack_after_log, render_stack, has_trailing, after_leading.
  destruct (str_startswith_colon s); [done|].
  by destruct (str_endswith_colon s).
Qed.

(** ** Indent strategies *)

(** C9. [NumberedIndent] on [[1,2,3]] gives ["1. 2. 3. "]; [SpaceIndent("-")]
    on [[0,1]] gives ["-"], and in general the character repeated
    [len(nlist) - 1] times; [NoneIndent] gives [""] on every stack. *)
Theorem indent_strategies :
  indent_call NumberedIndent [1; 2; 3] = "1. 2. 3. "
  ∧ indent_call (SpaceIndent "-") [0; 1] = "-"
  ∧ (∀ char nlist,
       indent_call (SpaceIndent char) nlist
       = String.concat "" (replicate (length nlist - 1) char))
  ∧ (∀ nlist, indent_call NoneIndent nlist = "").
Proof.
  split; [reflexivity|]. split; [reflexivity|]. split; [|reflexivity].
  intros char nlist. unfold indent_call, str_repeat. do 2 f_equal. lia.
Qed.

(** ** Sigils *)

(** C1. On a logger whose stack has a last element, [log] of a [str] that
    begins with a colon first adds one to the last counter, then deletes
    that frame, and goes on with the message without its first character:
    the sink receives the parent's stack [ns], untouched, and the counter
    just incremented appears nowhere afterwards. *)
Theorem log_leading_sigil w self l (ns : list Z) (x : Z) (s : string) :
  loggers w !! self = Some l →
  lists w !! nlist l = Some (ns ++ [x]) →
  str_startswith_colon s = true →
  let rest := str_drop_first s in
  let core := if str_endswith_colon rest then str_drop_last rest else rest in
  let w_incr := set_list (nlist l) (ns ++ [x + 1]) w in
  let w_pop := set_list (nlist l) ns w in
  incr_last self w = (w_incr, Return tt)
  ∧ Logger_deindent self w_incr = (w_pop, Return tt)
  ∧ Logger_log self (VStr s) w = log_lines_104_114 self rest w_pop
  ∧ ∃ w' child,
      Logger_log self (VStr s) w = (w', Return child)
      ∧ calls w' = calls w ++ sink_call_of l ns core
      ∧ stack_of w' self
        = Some (if str_endswith_colon rest then ns ++ [0] else ns).
Proof.
  intros Hl Hns Hlead rest core w_incr w_pop.
  assert (Hincr : incr_last self w = (w_incr, Return tt))
    by by apply incr_last_run.
  assert (Hpop : Logger_deindent self w_incr = (w_pop, Return tt)).
  { subst w_incr w_pop. erewrite Logger_deindent_run;
      [ | exact Hl | eapply set_list_lookup; exact Hns ].
    by rewrite set_list_twice. }
  split; [exact Hincr|]. split; [exact Hpop|]. split.
  - rewrite Logger_log_unfold. unfold bind at 1. rewrite Hincr.
    unfold bind at 1. rewrite Hlead. unfold bind at 1. by rewrite Hpop.
  - destruct (Logger_log_post w self l ns x s Hl Hns)
      as (w' & Hrun & Hl' & Hns' & Hcalls & _).
    exists w', (length (loggers w)). split; [exact Hrun|].
    unfold sink_calls_of, sink_call_of, suppressed, stripped, has_trailing,
      stack_after_log, has_trailing, render_stack, after_leading in *.
    rewrite Hlead in *. split.
    + rewrite Hcalls. subst core rest.
      by destruct (_ || _).
    + apply stack_of_Some. eauto.
Qed.

Lemma log_leading_sigil_witness :
  ∃ w' child,
    Logger_log 0 (VStr ":back:") demo_world = (w', Return child)
    ∧ calls w' = calls demo_world ++ sink_call_of demo_logger [4] "back"
    ∧ stack_of w' 0%nat = Some [4; 0].
Proof.
  exact (proj2 (proj2 (proj2
    (log_leading_sigil demo_world 0%nat demo_logger [4] 7 ":back:"
       eq_refl eq_refl eq_refl)))).
Defined.

(** C2, as the code has it.  On a logger whose stack has a last element,
    [log] of a [str] that ends with a colon (once a leading colon is gone)
    hands the sink the message without that colon together with the stack
    of the current level, and only then appends a zero frame.  The next
    [log] on that logger, when its message does not begin with a colon,
    is therefore rendered with last counter 1, whatever the counter [x]
    of the parent was.  (A next message that begins with a colon closes
    the new level before it is rendered.) *)
Theorem log_trailing_sigil w self l (ns : list Z) (x : Z) (s s' : string) :
  loggers w !! self = Some l →
  lists w !! nlist l = Some (ns ++ [x]) →
  has_trailing s = true →
  str_startswith_colon s' = false →
  let level := render_stack ns x s in
  ∃ w1 c1,
    Logger_log self (VStr s) w = (w1, Return c1)
    ∧ calls w1
      = calls w ++ sink_call_of l level (str_drop_last (after_leading s))
    ∧ stack_of w1 self = Some (level ++ [0])
    ∧ ∃ w2 c2,
        Logger_log self (VStr s') w1 = (w2, Return c2)
        ∧ calls w2 = calls w1 ++ sink_call_of l (level ++ [1]) (stripped s')
        ∧ stack_of w2 self
          = Some (if has_trailing s' then level ++ [1; 0] else level ++ [1]).
Proof.
  intros Hl Hns Htrail Hlead' level.
  destruct (Logger_log_post w self l ns x s Hl Hns)
    as (w1 & Hrun1 & Hl1 & Hns1 & Hcalls1 & _).
  unfold stack_after_log in Hns1. rewrite Htrail in Hns1. fold level in Hns1.
  destruct (Logger_log_post w1 self l level 0 s' Hl1 Hns1)
    as (w2 & Hrun2 & Hl2 & Hns2 & Hcalls2 & _).
  exists w1, (length (loggers w)). split; [exact Hrun1|]. split; [|split].
  - rewrite Hcalls1. unfold sink_calls_of, sink_call_of, suppressed, stripped.
    by rewrite Htrail.
  - apply stack_of_Some. eauto.
  - exists w2, (length (loggers w1)). split; [exact Hrun2|]. split.
    + rewrite Hcalls2. unfold sink_calls_of, sink_call_of, suppressed,
        render_stack. by rewrite Hlead'.
    + apply stack_of_Some. exists l. split; [exact Hl2|]. rewrite Hns2.
      unfold stack_after_log, render_stack. rewrite Hlead'. simpl.
      destruct (has_trailing s'); [|done]. by rewrite <- app_assoc.
Qed.

Lemma log_trailing_sigil_witness :
  ∃ w1 c1,
    Logger_log 0 (VStr "open:") demo_world = (w1, Return c1)
    ∧ calls w1 = calls demo_world ++ sink_call_of demo_logger [4; 8] "open"
    ∧ stack_of w1 0%nat = Some [4; 8; 0]
    ∧ ∃ w2 c2,
        Logger_log 0 (VStr "inner") w1 = (w2, Return c2)
        ∧ calls w2 = calls w1 ++ sink_call_of demo_logger [4; 8; 1] "inner"
        ∧ stack_of w2 0%nat = Some [4; 8; 1].
Proof.
  exact (log_trailing_sigil demo_world 0%nat demo_logger [4] 7 "open:" "inner"
           eq_refl eq_refl eq_refl eq_refl).
Defined.

(** C2, as claimed, fails when the next message begins with a colon: after
    ["open:"] on a logger that held [[4; 7]] the message [":x"] deletes
    the new frame before it is rendered, and the sink receives the stack
    [[4; 8]], whose last counter is the one of the parent, not 1. *)
Lemma log_trailing_sigil_counterexample :
  ∃ w1 c1 w2 c2,
    Logger_log 0 (VStr "open:") demo_world = (w1, Return c1)
    ∧ stack_of w1 0%nat = Some [4; 8; 0]
    ∧ Logger_log 0 (VStr ":x") w1 = (w2, Return c2)
    ∧ calls w2
      = calls w1 ++ [mkSinkCall std_log_function "x" "T" [4; 8] NumberedIndent]
    ∧ last [4; 8] ≠ Some 1.
Proof.
  set (w1 := fst (Logger_log 0 (VStr "open:") demo_world)).
  exists w1, 1%nat, (fst (Logger_log 0 (VStr ":x") w1)), 2%nat.
  split; [reflexivity|]. split; [reflexivity|]. split; [reflexivity|].
  split; [reflexivity | discriminate].
Qed.

Lemma suppressed_iff s :
  suppressed s = true ↔ stripped s = "" ∨ stripped s = " ".
Proof.
  unfold suppressed. rewrite orb_true_iff, !String.eqb_eq. reflexivity.
Qed.

(** C7. On a logger whose stack has a last element, a message that is
    empty or a single space once its sigils are gone is counted but not
    emitted: [log] returns, the sink is not invoked and nothing is
    printed, and the stack is the one any message with the same sigils
    leaves (the last counter incremented, then the depth shifts).  The
    message [":"] alone closes one level this way; [""] and [" "] only
    increment. *)
Theorem log_suppressed w self l (ns : list Z) (x : Z) (s : string) :
  loggers w !! self = Some l →
  lists w !! nlist l = Some (ns ++ [x]) →
  stripped s = "" ∨ stripped s = " " →
  ∃ w' child,
    Logger_log self (VStr s) w = (w', Return child)
    ∧ calls w' = calls w
    ∧ stdout w' = stdout w
    ∧ stack_of w' self = Some (stack_after_log ns x s)
    ∧ (s = ":" → stack_of w' self = Some ns)
    ∧ (s = "" ∨ s = " " → stack_of w' self = Some (ns ++ [x + 1])).
Proof.
  intros Hl Hns Hsup. apply suppressed_iff in Hsup.
  destruct (Logger_log_post w self l ns x s Hl Hns)
    as (w' & Hrun & Hl' & Hns' & Hcalls & Hout & _).
  assert (Hst : stack_of w' self = Some (stack_after_log ns x s))
    by (apply stack_of_Some; eauto).
  unfold sink_calls_of in *. rewrite Hsup in *. simpl in Hout.
  rewrite app_nil_r in Hcalls, Hout.
  exists w', (length (loggers w)). repeat split; try done.
  - intros ->. exact Hst.
  - intros [-> | ->]; exact Hst.
Qed.

Lemma log_suppressed_witness :
  ∃ w' child,
    Logger_log 0 (VStr ":") demo_world = (w', Return child)
    ∧ calls w' = calls demo_world
    ∧ stdout w' = stdout demo_world
    ∧ stack_of w' 0%nat = Some [4].
Proof.
  destruct (log_suppressed demo_world 0%nat demo_logger [4] 7 ":"
              eq_refl eq_refl (or_introl eq_refl))
    as (w' & child & Hrun & Hcalls & Hout & _ & Hcolon & _).
  exists w', child. split; [exact Hrun|]. split; [exact Hcalls|].
  split; [exact Hout | exact (Hcolon eq_refl)].
Defined.

(** ** Messages without sigils *)

Lemma log_each_no_sigil w self l (ns : list Z) (ms : list string) :
  ∀ x, loggers w !! self = Some l →
  lists w !! nlist l = Some (ns ++ [x]) →
  Forall (λ s, no_sigil s = true) ms →
  ∃ w', log_each self (VStr <$> ms) w = (w', Return tt)
        ∧ loggers w' !! self = Some l
        ∧ lists w' !! nlist l = Some (ns ++ [x + Z.of_nat (length ms)]).
Proof.
  revert w. induction ms as [|s ms IH]; intros w x Hl Hns Hall.
  - exists w. simpl. rewrite Z.add_0_r. done.
  - inversion Hall as [|? ? Hs Hms]; subst.
    destruct (Logger_log_post w self l ns x s Hl Hns)
      as (w1 & Hrun & Hl1 & Hns1 & _).
    rewrite (no_sigil_stack _ _ _ Hs) in Hns1.
    destruct (IH w1 (x + 1) Hl1 Hns1 Hms) as (w' & Hrest & Hl' & Hns').
    exists w'. split; [|split; [exact Hl'|]].
    + simpl. unfold bind. by rewrite Hrun.
    + rewrite Hns'. do 3 f_equal. simpl length. lia.
Qed.

(** C6. On a logger whose stack has a last element, any number of [log]
    calls with messages that neither begin nor end with a colon all
    return; after the first [k] of them the stack has its length of the
    start and its last counter has grown by exactly [k]. *)
Theorem log_without_sigils w self (ns : list Z) (x : Z) (ms : list string)
    (k : nat) :
  stack_of w self = Some (ns ++ [x]) →
  Forall (λ s, no_sigil s = true) ms →
  (k ≤ length ms)%nat →
  ∃ w', log_each self (VStr <$> take k ms) w = (w', Return tt)
        ∧ stack_of w' self = Some (ns ++ [x + Z.of_nat k])
        ∧ (length <$> stack_of w' self) = (length <$> stack_of w self).
Proof.
  intros Hst Hall Hk.
  apply stack_of_Some in Hst as Hst'. destruct Hst' as (l & Hl & Hns).
  destruct (log_each_no_sigil w self l ns (take k ms) x Hl Hns)
    as (w' & Hrun & Hl' & Hns').
  { by apply Forall_take. }
  rewrite length_take, Nat.min_l in Hns' by exact Hk.
  assert (Hst2 : stack_of w' self = Some (ns ++ [x + Z.of_nat k]))
    by (apply stack_of_Some; eauto).
  exists w'. split; [exact Hrun|]. split; [exact Hst2|].
  rewrite Hst, Hst2. simpl. by rewrite !length_app.
Qed.

Lemma log_without_sigils_witness :
  ∃ w', log_each 0 (VStr <$> take 2 ["a"; "b c"; "d"]) demo_world
        = (w', Return tt)
        ∧ stack_of w' 0%nat = Some [4; 9]
        ∧ (length <$> stack_of w' 0%nat) = Some 2%nat.
Proof.
  apply (log_without_sigils demo_world 0%nat [4] 7 ["a"; "b c"; "d"] 2).
  - reflexivity.
  - repeat constructor.
  - simpl. lia.
Defined.

(** ** Leaving a level *)

(** C3, as the code has it.  [deindent] makes no check of its own: from
    any stack with a last element, also one with a single frame, it deletes
    that element and returns, so a stack can become empty, and [log] of a
    message with a leading colon empties a one-frame stack in the same
    way.  Only on a stack that is already empty does the deletion raise,
    with the [IndexError] of the list, and nothing is changed then. *)
Theorem deindent_unguarded w self l (ns : list Z) :
  loggers w !! self = Some l →
  lists w !! nlist l = Some ns →
  (ns = [] → Logger_deindent self w = (w, Raise IndexError))
  ∧ (∀ ns0 x, ns = ns0 ++ [x] →
       Logger_deindent self w = (set_list (nlist l) ns0 w, Return tt)
       ∧ stack_of (set_list (nlist l) ns0 w) self = Some ns0)
  ∧ (∀ x s, ns = [x] → str_startswith_colon s = true →
       has_trailing s = false →
       ∃ w' child, Logger_log self (VStr s) w = (w', Return child)
                   ∧ stack_of w' self = Some []).
Proof.
  intros Hl Hns. split; [|split].
  - intros ->. by eapply Logger_deindent_empty.
  - intros ns0 x ->. split; [by eapply Logger_deindent_run|].
    apply stack_of_Some. exists l. split; [exact Hl|].
    by eapply set_list_lookup.
  - intros x s -> Hlead Htrail.
    destruct (Logger_log_post w self l [] x s Hl Hns)
      as (w' & Hrun & Hl' & Hns' & _).
    exists w', (length (loggers w)). split; [exact Hrun|].
    apply stack_of_Some. exists l. split; [exact Hl'|].
    rewrite Hns'. unfold stack_after_log, render_stack.
    by rewrite Htrail, Hlead.
Qed.

Lemma deindent_unguarded_witness :
  (Logger_deindent global_logger initial_world
   = (set_list 0 [] initial_world, Return tt)
   ∧ stack_of (set_list 0 [] initial_world) global_logger = Some [])
  ∧ (∃ w' child,
       Logger_log global_logger (VStr ":done") initial_world
       = (w', Return child)
       ∧ stack_of w' global_logger = Some [])
  ∧ Logger_deindent global_logger (set_list 0 [] initial_world)
    = (set_list 0 [] initial_world, Raise IndexError).
Proof.
  pose (root := mkLogger std_log_function "GLOBAL" 0 (SpaceIndent " ") None).
  destruct (deindent_unguarded initial_world global_logger root [0]
              eq_refl eq_refl) as (_ & Hpop & Hlog).
  destruct (deindent_unguarded (set_list 0 [] initial_world) global_logger
              root [] eq_refl eq_refl) as (Hempty & _).
  split; [exact (Hpop [] 0 eq_refl)|]. split.
  - exact (Hlog 0 ":done"%string eq_refl eq_refl eq_refl).
  - exact (Hempty eq_refl).
Defined.

(** C3, as claimed, fails on the root logger: its only frame is deleted
    without any error and the stack is left empty. *)
Lemma deindent_root_counterexample :
  ∃ w', Logger_deindent global_logger initial_world = (w', Return tt)
        ∧ stack_of initial_world global_logger = Some [0]
        ∧ stack_of w' global_logger = Some [].
Proof. eexists. split; [reflexivity|]. split; reflexivity. Qed.

(** ** Copies *)

(** C4, as the code has it.  [copy] returns a new logger with the prefix,
    the indent strategy and the sink of the original; its stack is the
    current stack with one zero frame appended, held in a list object
    that did not exist before, so the two loggers share no list: replacing
    the contents of either list leaves the other logger's stack as it
    was.  The logger [log] returns is such a copy. *)
Theorem copy_fresh_stack w self l (ns : list Z) :
  loggers w !! self = Some l →
  lists w !! nlist l = Some ns →
  (∃ w' c l',
     Logger_copy self w = (w', Return c)
     ∧ loggers w !! c = None
     ∧ loggers w' !! c = Some l'
     ∧ prefix l' = prefix l
     ∧ indent_type l' = indent_type l
     ∧ log_function l' = log_function l
     ∧ stack_of w' c = Some (ns ++ [0])
     ∧ stack_of w' self = Some ns
     ∧ nlist l' ≠ nlist l
     ∧ lists w !! nlist l' = None
     ∧ (∀ ns', stack_of (set_list (nlist l) ns' w') c = Some (ns ++ [0]))
     ∧ (∀ ns', stack_of (set_list (nlist l') ns' w') self = Some ns))
  ∧ (∀ ns0 x s, ns = ns0 ++ [x] →
       ∃ w' c l',
         Logger_log self (VStr s) w = (w', Return c)
         ∧ loggers w' !! c = Some l'
         ∧ prefix l' = prefix l
         ∧ indent_type l' = indent_type l
         ∧ log_function l' = log_function l
         ∧ stack_of w' c = Some (stack_after_log ns0 x s ++ [0])
         ∧ nlist l' ≠ nlist l
         ∧ lists w !! nlist l' = None).
Proof.
  intros Hl Hns.
  assert (Hlt : (nlist l < length (lists w))%nat) by by eapply lookup_lt_Some.
  assert (Hself : (self < length (loggers w))%nat) by by eapply lookup_lt_Some.
  split.
  - eexists _, (length (loggers w)), _.
    split; [by apply Logger_copy_run|]. simpl.
    split; [by apply lookup_ge_None_2|].
    split; [by apply list_lookup_middle|]. simpl.
    do 3 (split; [reflexivity|]).
    split; [|split; [|split; [lia|split; [by apply lookup_ge_None_2|split]]]].
    + unfold stack_of. simpl. rewrite list_lookup_middle by done. simpl.
      by rewrite list_lookup_middle.
    + unfold stack_of. simpl. rewrite lookup_app_l, Hl by done. simpl.
      by rewrite lookup_app_l.
    + intros ns'. unfold stack_of. simpl.
      rewrite list_lookup_middle by done. simpl.
      rewrite list_lookup_insert_ne by lia. by rewrite list_lookup_middle.
    + intros ns'. unfold stack_of. simpl. rewrite lookup_app_l, Hl by done.
      simpl. rewrite list_lookup_insert_ne by lia. by rewrite lookup_app_l.
  - intros ns0 x s ->.
    destruct (Logger_log_post w self l ns0 x s Hl Hns)
      as (w' & Hrun & Hl' & Hns' & _ & _ & _ & Hc & Hcs).
    eexists w', (length (loggers w)), _.
    split; [exact Hrun|]. split; [exact Hc|]. simpl.
    do 3 (split; [reflexivity|]).
    split; [|split; [lia|by apply lookup_ge_None_2]].
    unfold stack_of. by rewrite Hc.
Qed.

Lemma copy_fresh_stack_witness :
  (∃ w' c l',
     Logger_copy 0 demo_world = (w', Return c)
     ∧ loggers demo_world !! c = None
     ∧ loggers w' !! c = Some l'
     ∧ prefix l' = "T"%string
     ∧ indent_type l' = NumberedIndent
     ∧ log_function l' = std_log_function
     ∧ stack_of w' c = Some [4; 7; 0]
     ∧ stack_of w' 0%nat = Some [4; 7]
     ∧ nlist l' ≠ 0%nat
     ∧ lists demo_world !! nlist l' = None
     ∧ (∀ ns', stack_of (set_list 0 ns' w') c = Some [4; 7; 0])
     ∧ (∀ ns', stack_of (set_list (nlist l') ns' w') 0%nat = Some [4; 7]))
  ∧ (∃ w' c l',
       Logger_log 0 (VStr "step:") demo_world = (w', Return c)
       ∧ loggers w' !! c = Some l'
       ∧ prefix l' = "T"%string
       ∧ indent_type l' = NumberedIndent
       ∧ log_function l' = std_log_function
       ∧ stack_of w' c = Some [4; 8; 0; 0]
       ∧ nlist l' ≠ 0%nat
       ∧ lists demo_world !! nlist l' = None).
Proof.
  destruct (copy_fresh_stack demo_world 0%nat demo_logger [4; 7]
              eq_refl eq_refl) as (Hcopy & Hlog).
  split; [exact Hcopy | exact (Hlog [4] 7 "step:"%string eq_refl)].
Defined.

(** C4, as claimed, fails on a copy of the root logger: the copy holds
    another list object, and a later [log] on the root moves the root's
    counter to 1 while the copy still has 0 in its first frame. *)
Lemma copy_alias_counterexample :
  ∃ w1 c w2 child,
    Logger_copy global_logger initial_world = (w1, Return c)
    ∧ Logger_log global_logger (VStr "a") w1 = (w2, Return child)
    ∧ (nlist <$> loggers w1 !! c) ≠ (nlist <$> loggers w1 !! global_logger)
    ∧ stack_of w1 c = Some [0; 0]
    ∧ stack_of w2 global_logger = Some [1]
    ∧ stack_of w2 c = Some [0; 0].
Proof.
  set (w1 := fst (Logger_copy global_logger initial_world)).
  exists w1, 1%nat, (fst (Logger_log global_logger (VStr "a") w1)), 2%nat.
  split; [reflexivity|]. split; [reflexivity|].
  split; [discriminate|]. repeat split.
Qed.

(** ** Scoped use of a logger *)

Lemma Logger_enter_run w self l :
  loggers w !! self = Some l →
  Logger_enter self w
  = (mkWorld (lists w)
       (<[self := mkLogger (log_function l) (prefix l) (nlist l)
                    (indent_type l) (Some (logger_contextvar w))]> (loggers w))
       self (calls w) (stdout w),
     Return tt).
Proof.
  intros Hl. unfold Logger_enter, bind, read_logger. by rewrite Hl.
Qed.

Lemma Logger_exit_run w self l (ns : list Z) x p :
  loggers w !! self = Some l →
  lists w !! nlist l = Some (ns ++ [x]) →
  prev_logger l = Some p →
  Logger_exit self w
  = (mkWorld (<[nlist l := ns]> (lists w)) (loggers w) p (calls w) (stdout w),
     Return tt).
Proof.
  intros Hl Hns Hp. unfold Logger_exit. unfold bind at 1.
  rewrite (Logger_deindent_run _ _ _ _ _ Hl Hns).
  unfold bind, read_logger. simpl. by rewrite Hl, Hp.
Qed.

(** C5, as the code has it.  [__enter__] makes the logger ambient and
    remembers the logger that was ambient.  When the body is over, by a
    return or by a raise, and the logger still has a last frame and still
    remembers that logger, [__exit__] deletes exactly that one frame, makes
    the remembered logger ambient again and changes nothing else; the
    outcome of the [with] statement is the outcome of the body, value or
    exception, as it was. *)
Theorem with_logger_releases {A} (body : M A) w self l w2 (r : outcome A) l2
    (ns : list Z) (x : Z) :
  loggers w !! self = Some l →
  body (fst (Logger_enter self w)) = (w2, r) →
  loggers w2 !! self = Some l2 →
  prev_logger l2 = Some (logger_contextvar w) →
  lists w2 !! nlist l2 = Some (ns ++ [x]) →
  logger_contextvar (fst (Logger_enter self w)) = self
  ∧ (prev_logger <$> loggers (fst (Logger_enter self w)) !! self)
    = Some (Some (logger_contextvar w))
  ∧ ∃ w3,
      with_logger self body w = (w3, r)
      ∧ stack_of w3 self = Some ns
      ∧ logger_contextvar w3 = logger_contextvar w
      ∧ lists w3 = <[nlist l2 := ns]> (lists w2)
      ∧ loggers w3 = loggers w2
      ∧ calls w3 = calls w2
      ∧ stdout w3 = stdout w2.
Proof.
  intros Hl Hbody Hl2 Hprev Hns.
  rewrite (Logger_enter_run _ _ _ Hl) in *. simpl in Hbody |- *.
  split; [reflexivity|]. split.
  { rewrite list_lookup_insert_eq by by eapply lookup_lt_Some. reflexivity. }
  eexists. split.
  - unfold with_logger. unfold bind at 1.
    rewrite (Logger_enter_run _ _ _ Hl), Hbody.
    destruct r; unfold bind;
      rewrite (Logger_exit_run _ _ _ _ _ _ Hl2 Hns Hprev); reflexivity.
  - simpl. repeat split. apply stack_of_Some. exists l2. simpl.
    split; [exact Hl2|]. apply list_lookup_insert_eq.
    by eapply lookup_lt_Some.
Qed.

Lemma with_logger_releases_witness :
  ∃ w3,
    with_logger (A := unit) 0
      (Logger_log 0 (VStr "work") ;;; raise (Raised "boom")) demo_world
    = (w3, Raise (Raised "boom"))
    ∧ stack_of w3 0%nat = Some [4]
    ∧ logger_contextvar w3 = logger_contextvar demo_world.
Proof.
  destruct (with_logger_releases
    (Logger_log 0 (VStr "work") ;;; raise (Raised "boom") : M unit)
    demo_world 0%nat demo_logger
    (fst ((Logger_log 0 (VStr "work") ;;; raise (Raised "boom") : M unit)
            (fst (Logger_enter 0 demo_world))))
    (Raise (Raised "boom"))
    (mkLogger std_log_function "T" 0 NumberedIndent (Some 0%nat))
    [4] 8 eq_refl eq_refl eq_refl eq_refl eq_refl)
    as (_ & _ & w3 & Hrun & Hst & Hctx & _).
  exists w3. split; [exact Hrun|]. split; [exact Hst | exact Hctx].
Defined.

(** C5, as claimed, fails for an instrumented function that closes two
    levels and then raises: at the exit the logger has no frame left, the
    deletion raises [IndexError], which replaces the exception of the
    function, and the ambient logger stays the logger of the call. *)
Lemma with_logger_counterexample :
  ∃ w',
    wrapper (Message (VStr "f")) draining_func [] ∅ initial_world
    = (w', Raise IndexError)
    ∧ logger_contextvar initial_world = global_logger
    ∧ logger_contextvar w' = 1%nat
    ∧ stack_of w' 1%nat = Some [].
Proof.
  exists (fst (wrapper (Message (VStr "f")) draining_func [] ∅ initial_world)).
  repeat split.
Qed.

(** ** Messages that are not strings *)



(** ** The decorator *)

Lemma dict_of_pairs_snoc pairs k v :
  dict_of_pairs (pairs ++ [(k, v)]) = <[k := v]> (dict_of_pairs pairs).
Proof. unfold dict_of_pairs. by rewrite foldl_snoc. Qed.

Lemma dict_of_pairs_None pairs k :
  k ∉ pairs.*1 → dict_of_pairs pairs !! k = None.
Proof.
  induction pairs as [|[k' v'] pairs IH] using rev_ind; intros Hk.
  - apply lookup_empty.
  - rewrite dict_of_pairs_snoc. rewrite fmap_app in Hk. simpl in Hk.
    apply not_elem_of_app in Hk as [Hk Hk'].
    rewrite lookup_insert_ne; [by apply IH|].
    intros ->. apply Hk'. by apply list_elem_of_singleton.
Qed.

Lemma dict_of_pairs_Some pairs i k v :
  NoDup (pairs.*1) → pairs !! i = Some (k, v) →
  dict_of_pairs pairs !! k = Some v.
Proof.
  revert i. induction pairs as [|[k' v'] pairs IH] using rev_ind;
    intros i Hnd Hi; [done|].
  rewrite dict_of_pairs_snoc. rewrite fmap_app in Hnd. simpl in Hnd.
  apply NoDup_app in Hnd as (Hnd & Hnot & _).
  destruct (decide (i < length pairs)%nat) as [Hlt|Hge].
  - rewrite lookup_app_l in Hi by done.
    assert (k ∈ pairs.*1).
    { apply list_elem_of_fmap. exists (k, v). split; [done|].
      apply list_elem_of_lookup. eauto. }
    rewrite lookup_insert_ne
      by (intros ->; apply (Hnot k); [done | by apply list_elem_of_singleton]).
    by eapply IH.
  - rewrite lookup_app_r in Hi by lia.
    destruct (i - length pairs)%nat; [|done]. simpl in Hi.
    injection Hi as -> ->. apply lookup_insert_eq.
Qed.

Lemma NoDup_fst_zip (names : list string) (args : list pyval) :
  NoDup names → NoDup ((zip names args).*1).
Proof.
  intros Hnd. revert args. induction Hnd as [|k names Hk Hnd IH];
    intros [|a args]; simpl; try constructor; [|by apply IH].
  intros Hin. apply list_elem_of_fmap in Hin as ([k' a'] & -> & Hin).
  apply elem_of_zip_l in Hin. done.
Qed.

(** C8. With a callable [message_or_func] both wrappers compute the
    message from the assigned arguments, and only then log and call.  In
    that mapping a keyword argument is found under its name, whatever was
    bound by position; a name without keyword argument holds the
    positional argument at the position of that name among the declared
    parameters; a name with neither is absent.  With a message that is not
    callable both wrappers log that very value, and neither the declared
    parameters nor the arguments take part in the message. *)
Theorem wrapper_assigned_args (d : Func) (args : list pyval)
    (kwargs : gmap string pyval) :
  let bound := assigned_args (func_args d) args kwargs in
  (∀ f, wrapper (MessageFunc f) d args kwargs
        = (message_ <- f bound ;;
           mgr <- log message_ ;;
           with_logger mgr (func_call d args kwargs)))
  ∧ (∀ f, async_wrapper (MessageFunc f) d args kwargs
          = wrapper (MessageFunc f) d args kwargs)
  ∧ (∀ k v, kwargs !! k = Some v → bound !! k = Some v)
  ∧ (∀ k i v, NoDup (func_args d) → kwargs !! k = None →
       func_args d !! i = Some k → args !! i = Some v →
       bound !! k = Some v)
  ∧ (∀ k, kwargs !! k = None →
       (∀ i, func_args d !! i = Some k → args !! i = None) →
       bound !! k = None)
  ∧ (∀ v, wrapper (Message v) d args kwargs
          = (mgr <- log v ;; with_logger mgr (func_call d args kwargs)))
  ∧ (∀ v, async_wrapper (Message v) d args kwargs
          = wrapper (Message v) d args kwargs)
  ∧ (∀ v names, wrapper (Message v)
                  (mkFunc names (iscoroutinefunction d) (func_call d))
                  args kwargs
                = wrapper (Message v) d args kwargs).
Proof.
  intros bound. subst bound. unfold assigned_args, dict_or.
  split; [reflexivity|]. split; [reflexivity|]. split; [|split; [|split]].
  - intros k v Hk. by apply lookup_union_Some_l.
  - intros k i v Hnd Hk Hname Harg.
    rewrite lookup_union_r by exact Hk.
    apply (dict_of_pairs_Some _ i); [by apply NoDup_fst_zip|].
    by apply lookup_zip_Some.
  - intros k Hk Hpos. rewrite lookup_union_r by exact Hk.
    apply dict_of_pairs_None. intros Hin.
    apply list_elem_of_fmap in Hin as ([k' a] & -> & Hin).
    apply list_elem_of_lookup in Hin as [i Hi].
    apply lookup_zip_Some in Hi as [Hname Harg]. simpl in Hpos.
    by rewrite (Hpos i Hname) in Harg.
  - split; [reflexivity|]. split; reflexivity.
Qed.

Lemma wrapper_assigned_args_witness :
  let args := [VStr "first"; VStr "second"] in
  let kwargs : gmap string pyval := {[ "a"%string := VStr "named" ]} in
  let bound := assigned_args ["a"%string; "b"%string] args kwargs in
  bound !! "a"%string = Some (VStr "named")
  ∧ bound !! "b"%string = Some (VStr "second")
  ∧ bound !! "c"%string = None
  ∧ stdout (fst (wrapper (MessageFunc message_of_a) two_param_func args kwargs
                   initial_world))
    = ["[GLOBAL] named"%string].
Proof.
  intros args kwargs bound.
  destruct (wrapper_assigned_args two_param_func args kwargs)
    as (Hrun & _ & Hkw & Hpos & Hnone & _).
  split; [exact (Hkw "a"%string (VStr "named") eq_refl)|].
  split; [|split].
  - apply (Hpos "b"%string 1%nat (VStr "second")); [|reflexivity..].
    apply NoDup_cons. split; [|apply NoDup_singleton].
    intros Hin. apply list_elem_of_singleton in Hin. discriminate.
  - apply (Hnone "c"%string); [reflexivity|].
    intros [|[|i]]; simpl; discriminate.
  - rewrite (Hrun message_of_a). reflexivity.
Defined.

(** * Further properties of the module *)

(** ** Strings *)

Lemma str_app_cons c (a b : string) :
  (String c a ++ b)%string = String c (a ++ b)%string.
Proof. reflexivity. Qed.

Lemma str_app_nil_r (s : string) : (s ++ "")%string = s.
Proof. induction s as [|c s IH]; [done|]. by rewrite str_app_cons, IH. Qed.

Lemma str_app_assoc (a b c : string) :
  ((a ++ b) ++ c)%string = (a ++ (b ++ c))%string.
Proof. induction a as [|x a IH]; [done|]. by rewrite !str_app_cons, IH. Qed.

Lemma str_length_app (a b : string) :
  String.length (a ++ b)%string = (String.length a + String.length b)%nat.
Proof.
  induction a as [|x a IH]; [done|]. rewrite str_app_cons. simpl.
  by rewrite IH.
Qed.

Lemma concat_empty_cons (x : string) (xs : list string) :
  String.concat "" (x :: xs) = (x ++ String.concat "" xs)%string.
Proof. destruct xs; simpl; [by rewrite str_app_nil_r | done]. Qed.

Lemma concat_empty_app (l1 l2 : list string) :
  String.concat "" (l1 ++ l2)
  = (String.concat "" l1 ++ String.concat "" l2)%string.
Proof.
  induction l1 as [|x l1 IH]; [done|].
  rewrite <- app_comm_cons, !concat_empty_cons, IH.
  by rewrite str_app_assoc.
Qed.

Lemma str_length_repeat (c : string) (n : nat) :
  String.length (String.concat "" (replicate n c))
  = (n * String.length c)%nat.
Proof.
  induction n as [|n IH]; [done|].
  rewrite replicate_S, concat_empty_cons, str_length_app, IH. lia.
Qed.

(** ** Indentation and depth *)

(** X1. The numbered prefix of a stack is the prefixes of its parts put
    one after the other; one level deeper, the prefix of the parent is
    followed by the new counter, a dot and a space. *)
Theorem numbered_indent_app :
  (∀ a b : list Z,
     indent_call NumberedIndent (a ++ b)
     = (indent_call NumberedIndent a ++ indent_call NumberedIndent b)%string)
  ∧ (∀ (ns : list Z) (k : Z),
       indent_call NumberedIndent (ns ++ [k])
       = (indent_call NumberedIndent ns ++ (str_of_int k ++ ". "))%string).
Proof.
  assert (Happ : ∀ a b : list Z,
            indent_call NumberedIndent (a ++ b)
            = (indent_call NumberedIndent a
               ++ indent_call NumberedIndent b)%string).
  { intros a b. unfold indent_call. by rewrite map_app, concat_empty_app. }
  split; [exact Happ|]. intros ns k. by rewrite Happ.
Qed.

(** X2. The space indent depends on the depth alone: its length is the
    length of the character string times the number of frames below the
    root, the empty stack and the root level both give no indentation,
    and one level deeper adds the character string once. *)
Theorem space_indent_depth (char : string) :
  (∀ ns : list Z,
     String.length (indent_call (SpaceIndent char) ns)
     = (String.length char * (length ns - 1))%nat)
  ∧ indent_call (SpaceIndent char) [] = ""%string
  ∧ (∀ n : Z, indent_call (SpaceIndent char) [n] = ""%string)
  ∧ (∀ (n : Z) (ns : list Z) (k : Z),
       indent_call (SpaceIndent char) (n :: ns ++ [k])
       = (char ++ indent_call (SpaceIndent char) (n :: ns))%string).
Proof.
  split; [|split; [done|split; [done|]]].
  - intros ns. unfold indent_call, str_repeat.
    rewrite str_length_repeat. lia.
  - intros n ns k. unfold indent_call, str_repeat.
    rewrite <- concat_empty_cons, <- replicate_S. do 2 f_equal.
    simpl length. rewrite length_app. simpl. lia.
Qed.

(** ** What [log] leaves alone *)

Lemma keeps_ambient_ret {A} (a : A) : keeps_ambient (ret a).
Proof. by intros w. Qed.

Lemma keeps_ambient_raise {A} (e : exn) : keeps_ambient (raise (A := A) e).
Proof. by intros w. Qed.

Lemma keeps_ambient_bind {A B} (m : M A) (k : A → M B) :
  keeps_ambient m → (∀ a, keeps_ambient (k a)) → keeps_ambient (bind m k).
Proof.
  intros Hm Hk w. unfold bind. specialize (Hm w).
  destruct (m w) as [w1 [a|e]]; simpl in *; [|done].
  by rewrite (Hk a w1).
Qed.

Lemma keeps_ambient_read_logger self : keeps_ambient (read_logger self).
Proof. intros w. unfold read_logger. by destruct (loggers w !! self). Qed.

Lemma keeps_ambient_read_list r : keeps_ambient (read_list r).
Proof. intros w. unfold read_list. by destruct (lists w !! r). Qed.

Lemma keeps_ambient_if {A} (b : bool) (m1 m2 : M A) :
  keeps_ambient m1 → keeps_ambient m2 → keeps_ambient (if b then m1 else m2).
Proof. by destruct b. Qed.

Create HintDb ambient.

#[local] Hint Resolve keeps_ambient_ret keeps_ambient_raise
  keeps_ambient_read_logger keeps_ambient_read_list : ambient.
#[local] Hint Extern 1 (keeps_ambient (bind _ _)) =>
  apply keeps_ambient_bind; [|intros ?] : ambient.
#[local] Hint Extern 1 (keeps_ambient (if _ then _ else _)) =>
  apply keeps_ambient_if : ambient.
#[local] Hint Extern 1 (keeps_ambient (write_list _ _)) =>
  (by intros ?) : ambient.
#[local] Hint Extern 1 (keeps_ambient (new_list _)) =>
  (by intros ?) : ambient.
#[local] Hint Extern 1 (keeps_ambient (new_logger _)) =>
  (by intros ?) : ambient.
#[local] Hint Extern 1 (keeps_ambient (call_log_function _ _ _ _ _)) =>
  (by intros ?) : ambient.

Lemma keeps_ambient_indent self : keeps_ambient (Logger_indent self).
Proof. unfold Logger_indent. auto 10 with ambient. Qed.

Lemma keeps_ambient_deindent self : keeps_ambient (Logger_deindent self).
Proof.
  unfold Logger_deindent. do 2 (apply keeps_ambient_bind; [auto with ambient|intros ?]).
  destruct a0; auto with ambient.
Qed.

Lemma keeps_ambient_incr_last self : keeps_ambient (incr_last self).
Proof.
  unfold incr_last. do 2 (apply keeps_ambient_bind; [auto with ambient|intros ?]).
  destruct (last _); auto with ambient.
Qed.

Lemma keeps_ambient_copy self : keeps_ambient (Logger_copy self).
Proof.
  unfold Logger_copy, Logger_init. auto 12 with ambient.
Qed.

Lemma keeps_ambient_Logger_log self v : keeps_ambient (Logger_log self v).
Proof.
  unfold Logger_log.
  apply keeps_ambient_bind; [apply keeps_ambient_incr_last|intros _].
  apply keeps_ambient_bind.
  { destruct v; simpl; auto with ambient. }
  intros b. destruct v; auto with ambient.
  apply keeps_ambient_bind.
  { destruct b; [|auto with ambient].
    apply keeps_ambient_bind; [apply keeps_ambient_deindent|auto with ambient]. }
  intros message. cbv zeta.
  apply keeps_ambient_bind.
  { apply keeps_ambient_if; auto 10 with ambient. }
  intros _. apply keeps_ambient_bind.
  { apply keeps_ambient_if;
      [apply keeps_ambient_indent | auto with ambient]. }
  intros _. apply keeps_ambient_copy.
Qed.

(** X3. No method of a logger that works on the counters touches the
    context variable: after [log] (of any value, on any logger, returning or
    raising), [indent], [deindent] and [copy], and after the module-level
    [log], the ambient logger is the one it was.  Only [__enter__] and
    [__exit__] write it. *)
Theorem counters_keep_ambient :
  (∀ self v, keeps_ambient (Logger_log self v))
  ∧ (∀ self, keeps_ambient (Logger_indent self))
  ∧ (∀ self, keeps_ambient (Logger_deindent self))
  ∧ (∀ self, keeps_ambient (Logger_copy self))
  ∧ (∀ v, keeps_ambient (log v))
  ∧ (∀ vs, keeps_ambient (log_all vs)).
Proof.
  assert (Hlog : ∀ v, keeps_ambient (log v)).
  { intros v. unfold log. apply keeps_ambient_bind; [by intros ?|].
    intros cur. apply keeps_ambient_Logger_log. }
  repeat split.
  - apply keeps_ambient_Logger_log.
  - apply keeps_ambient_indent.
  - apply keeps_ambient_deindent.
  - apply keeps_ambient_copy.
  - apply Hlog.
  - intros vs. induction vs as [|v vs IH]; simpl; [by intros ?|].
    apply keeps_ambient_bind; [apply Hlog | intros _; exact IH].
Qed.

Lemma Logger_log_empty_run w self l v :
  loggers w !! self = Some l → lists w !! nlist l = Some [] →
  Logger_log self v w = (w, Raise IndexError).
Proof.
  intros Hl Hns. unfold Logger_log. unfold bind at 1.
  by rewrite (incr_last_empty _ _ _ Hl Hns).
Qed.

Lemma Logger_log_non_str_run w self l (ns : list Z) x v :
  is_str v = false →
  loggers w !! self = Some l → lists w !! nlist l = Some (ns ++ [x]) →
  Logger_log self v w
  = (set_list (nlist l) (ns ++ [x + 1]) w, Raise (startswith_error v)).
Proof.
  intros Hv Hl Hns. unfold Logger_log. unfold bind at 1.
  rewrite (incr_last_run _ _ _ _ _ Hl Hns).
  destruct v; try discriminate; reflexivity.
Qed.

(** A world that differs from [w] by new contents of one list and by
    objects added at the end of the stores. *)
Lemma grown_world_frame w w' r (X : list Z) (more : list (list Z))
    (born : list Logger) :
  lists w' = <[r := X]> (lists w) ++ more →
  loggers w' = loggers w ++ born →
  (∀ i li, loggers w !! i = Some li → loggers w' !! i = Some li)
  ∧ (∀ r0 lr, r0 ≠ r → lists w !! r0 = Some lr → lists w' !! r0 = Some lr).
Proof.
  intros Hlists Hloggers. split.
  - intros i li Hi. rewrite Hloggers, lookup_app_l; [done|].
    by eapply lookup_lt_Some.
  - intros r0 lr Hne Hr0. rewrite Hlists, lookup_app_l.
    + by rewrite list_lookup_insert_ne.
    + rewrite length_insert. by eapply lookup_lt_Some.
Qed.

Lemma Logger_log_shape w self l (ns : list Z) (v : pyval) :
  loggers w !! self = Some l →
  lists w !! nlist l = Some ns →
  ∃ w' r X more born,
    Logger_log self v w = (w', r)
    ∧ lists w' = <[nlist l := X]> (lists w) ++ more
    ∧ loggers w' = loggers w ++ born.
Proof.
  intros Hl Hns. destruct ns as [|x ns _] using rev_ind.
  - exists w, (Raise IndexError), [], [], [].
    split; [by eapply Logger_log_empty_run|].
    rewrite !app_nil_r. by rewrite list_insert_id.
  - destruct (is_str v) eqn:Hv.
    + destruct v; try discriminate.
      eexists _, _, _, _, _.
      split; [by apply Logger_log_run|]. by simpl.
    + eexists _, _, _, [], [].
      split; [by apply Logger_log_non_str_run|].
      simpl. by rewrite !app_nil_r.
Qed.

Lemma Logger_log_keeps w self l (ns : list Z) (v : pyval) :
  loggers w !! self = Some l →
  lists w !! nlist l = Some ns →
  ∃ w' r,
    Logger_log self v w = (w', r)
    ∧ (∀ i li, loggers w !! i = Some li → loggers w' !! i = Some li)
    ∧ (∀ r0 lr, r0 ≠ nlist l → lists w !! r0 = Some lr →
         lists w' !! r0 = Some lr)
    ∧ (∀ other lo st, loggers w !! other = Some lo → nlist lo ≠ nlist l →
         stack_of w other = Some st → stack_of w' other = Some st).
Proof.
  intros Hl Hns.
  destruct (Logger_log_shape w self l ns v Hl Hns)
    as (w' & r & X & more & born & Hrun & Hlists & Hloggers).
  destruct (grown_world_frame w w' (nlist l) X more born Hlists Hloggers)
    as [Hkeep Hother].
  exists w', r. split; [exact Hrun|]. split; [exact Hkeep|].
  split; [exact Hother|].
  intros other lo st Hlo Hne Hst. apply stack_of_Some in Hst.
  destruct Hst as (lo' & Hlo' & Hst). rewrite Hlo in Hlo'. injection Hlo' as <-.
  apply stack_of_Some. exists lo. split; [by apply Hkeep | by apply Hother].
Qed.

(** X4. [log] works on the list of its own logger and on nothing else
    that exists: for every message, and whether the call returns or
    raises, every [Logger] object is afterwards what it was, every other
    list object has its contents, and so every logger that holds another
    list has the stack it had. *)
Theorem log_frame w self l (ns : list Z) (v : pyval) :
  loggers w !! self = Some l →
  lists w !! nlist l = Some ns →
  ∃ w' r,
    Logger_log self v w = (w', r)
    ∧ (∀ i li, loggers w !! i = Some li → loggers w' !! i = Some li)
    ∧ (∀ r0 lr, r0 ≠ nlist l → lists w !! r0 = Some lr →
         lists w' !! r0 = Some lr)
    ∧ (∀ other lo st, loggers w !! other = Some lo → nlist lo ≠ nlist l →
         stack_of w other = Some st → stack_of w' other = Some st).
Proof. apply Logger_log_keeps. Qed.

Lemma log_frame_witness :
  ∃ w' r,
    Logger_log 0 (VInt 3)
      (mkWorld [[4; 7]; [5]]
         [demo_logger; mkLogger std_log_function "U" 1 NoneIndent None]
         0 [] [])
    = (w', r)
    ∧ stack_of w' 1%nat = Some [5].
Proof.
  destruct (log_frame
    (mkWorld [[4; 7]; [5]]
       [demo_logger; mkLogger std_log_function "U" 1 NoneIndent None] 0 [] [])
    0%nat demo_logger [4; 7] (VInt 3) eq_refl eq_refl)
    as (w' & r & Hrun & _ & _ & Hstack).
  exists w', r. split; [exact Hrun|].
  apply (Hstack 1%nat (mkLogger std_log_function "U" 1 NoneIndent None) [5]);
    [reflexivity | discriminate | reflexivity].
Defined.

(** ** Opening and closing a level by hand *)

Lemma set_list_same w r (ns : list Z) :
  lists w !! r = Some ns → set_list r ns w = w.
Proof.
  intros H. unfold set_list. rewrite list_insert_id by exact H.
  by destruct w.
Qed.

(** X5. [indent] followed by [deindent] is a round trip: the whole state
    is the one before.  The other way round it is not: [deindent] followed
    by [indent] keeps the depth but the counter of the level is back
    at 0. *)
Theorem indent_deindent_round_trip w self l (ns : list Z) :
  loggers w !! self = Some l →
  lists w !! nlist l = Some ns →
  (Logger_indent self ;;; Logger_deindent self) w = (w, Return tt)
  ∧ (∀ ns0 x, ns = ns0 ++ [x] →
       ∃ w', (Logger_deindent self ;;; Logger_indent self) w = (w', Return tt)
             ∧ stack_of w' self = Some (ns0 ++ [0])).
Proof.
  intros Hl Hns. split.
  - unfold bind. rewrite (Logger_indent_run _ _ _ _ Hl Hns).
    erewrite Logger_deindent_run;
      [ | exact Hl | eapply set_list_lookup; exact Hns ].
    rewrite set_list_twice. by rewrite set_list_same.
  - intros ns0 x ->. eexists. split.
    + unfold bind. rewrite (Logger_deindent_run _ _ _ _ _ Hl Hns).
      erewrite Logger_indent_run;
        [ | exact Hl | eapply set_list_lookup; exact Hns ].
      by rewrite set_list_twice.
    + apply stack_of_Some. exists l. split; [exact Hl|].
      eapply set_list_lookup. exact Hns.
Qed.

Lemma indent_deindent_round_trip_witness :
  (Logger_indent 0 ;;; Logger_deindent 0) demo_world = (demo_world, Return tt)
  ∧ ∃ w', (Logger_deindent 0 ;;; Logger_indent 0) demo_world = (w', Return tt)
          ∧ stack_of w' 0%nat = Some [4; 0].
Proof.
  destruct (indent_deindent_round_trip demo_world 0%nat demo_logger [4; 7]
              eq_refl eq_refl) as (Hround & Hback).
  split; [exact Hround | exact (Hback [4] 7 eq_refl)].
Defined.

(** ** Sequences of messages *)

Lemma sink_calls_of_no_sigil l (ns : list Z) x s :
  no_sigil s = true →
  sink_calls_of l ns x s = sink_call_of l (ns ++ [x + 1]) s.
Proof.
  unfold no_sigil, sink_calls_of, sink_call_of, suppressed, stripped,
    has_trailing, render_stack, after_leading.
  destruct (str_startswith_colon s); [done|].
  by destruct (str_endswith_colon s).
Qed.

Lemma log_each_no_sigil_calls self l (ns : list Z) (ms : list string) :
  ∀ w x, loggers w !! self = Some l →
  lists w !! nlist l = Some (ns ++ [x]) →
  Forall (λ s, no_sigil s = true) ms →
  ∃ w', log_each self (VStr <$> ms) w = (w', Return tt)
        ∧ loggers w' !! self = Some l
        ∧ lists w' !! nlist l = Some (ns ++ [x + Z.of_nat (length ms)])
        ∧ calls w'
          = calls w
            ++ mjoin (imap (λ i s,
                        sink_call_of l (ns ++ [x + 1 + Z.of_nat i]) s) ms).
Proof.
  induction ms as [|s ms IH]; intros w x Hl Hns Hall.
  - exists w. simpl. rewrite Z.add_0_r, app_nil_r. done.
  - inversion Hall as [|? ? Hs Hms]; subst.
    destruct (Logger_log_post w self l ns x s Hl Hns)
      as (w1 & Hrun & Hl1 & Hns1 & Hcalls1 & _).
    rewrite (no_sigil_stack _ _ _ Hs) in Hns1.
    rewrite (sink_calls_of_no_sigil _ _ _ _ Hs) in Hcalls1.
    destruct (IH w1 (x + 1) Hl1 Hns1 Hms)
      as (w' & Hrest & Hl' & Hns' & Hcalls').
    exists w'. split; [|split; [exact Hl'|split]].
    + simpl. unfold bind. by rewrite Hrun.
    + rewrite Hns'. do 3 f_equal. simpl length. lia.
    + rewrite Hcalls', Hcalls1, imap_cons. simpl.
      rewrite <- app_assoc. do 2 f_equal.
      * do 3 f_equal. lia.
      * f_equal. apply imap_ext. intros i m _. simpl.
        do 3 f_equal. lia.
Qed.

(** X6. In a run of messages without sigils on one logger, the message
    at position [i] (from 0) is handed to the sink with the frames below
    the last unchanged and with last counter [x + 1 + i]; an empty or
    one-space message is skipped by the sink and counted all the same. *)
Theorem log_sequence_rendering w self l (ns : list Z) (x : Z)
    (ms : list string) :
  loggers w !! self = Some l →
  lists w !! nlist l = Some (ns ++ [x]) →
  Forall (λ s, no_sigil s = true) ms →
  ∃ w',
    log_each self (VStr <$> ms) w = (w', Return tt)
    ∧ calls w'
      = calls w
        ++ mjoin (imap (λ i s,
                    sink_call_of l (ns ++ [x + 1 + Z.of_nat i]) s) ms)
    ∧ (∀ i s, ms !! i = Some s → s ≠ ""%string → s ≠ " "%string →
         mkSinkCall (log_function l) s (prefix l)
           (ns ++ [x + 1 + Z.of_nat i]) (indent_type l) ∈ calls w').
Proof.
  intros Hl Hns Hall.
  destruct (log_each_no_sigil_calls self l ns ms w x Hl Hns Hall)
    as (w' & Hrun & _ & _ & Hcalls).
  exists w'. split; [exact Hrun|]. split; [exact Hcalls|].
  intros i s Hi Hne Hsp. rewrite Hcalls. apply elem_of_app. right.
  apply list_elem_of_join.
  exists (sink_call_of l (ns ++ [x + 1 + Z.of_nat i]) s). split.
  - unfold sink_call_of.
    apply String.eqb_neq in Hne. apply String.eqb_neq in Hsp.
    rewrite Hne, Hsp. simpl. by apply list_elem_of_singleton.
  - apply list_elem_of_lookup. exists i.
    by rewrite list_lookup_imap, Hi.
Qed.

Lemma log_sequence_rendering_witness :
  ∃ w',
    log_each 0 (VStr <$> ["a"; ""; "c"]) demo_world = (w', Return tt)
    ∧ calls w'
      = [mkSinkCall std_log_function "a" "T" [4; 8] NumberedIndent;
         mkSinkCall std_log_function "c" "T" [4; 10] NumberedIndent]
    ∧ mkSinkCall std_log_function "c" "T" [4; 10] NumberedIndent ∈ calls w'.
Proof.
  destruct (log_sequence_rendering demo_world 0%nat demo_logger [4] 7
              ["a"; ""; "c"]%string eq_refl eq_refl)
    as (w' & Hrun & Hcalls & Hin).
  { repeat constructor. }
  exists w'. split; [exact Hrun|]. split; [exact Hcalls|].
  apply (Hin 2%nat "c"%string); [reflexivity | discriminate..].
Defined.



(** ** What the sink receives and prints *)

(** X8. For a message that is not suppressed [log] prints exactly one
    line through the default sink: the prefix in square brackets and a
    space when the prefix is not empty, then the indentation of the stack
    the message is rendered against, then the message without its sigils.
    Through any other sink the module prints nothing itself. *)
Theorem log_prints_one_line w self l (ns : list Z) (x : Z) (s : string) :
  loggers w !! self = Some l →
  lists w !! nlist l = Some (ns ++ [x]) →
  suppressed s = false →
  ∃ w' child,
    Logger_log self (VStr s) w = (w', Return child)
    ∧ stdout w'
      = stdout w
        ++ match log_function l with
           | std_log_function =>
               [((if String.eqb (prefix l) "" then ""
                  else "[" ++ prefix l ++ "] ")
                 ++ indent_call (indent_type l) (render_stack ns x s)
                 ++ stripped s)%string]
           | other_log_function _ => []
           end.
Proof.
  intros Hl Hns Hsup.
  destruct (Logger_log_post w self l ns x s Hl Hns)
    as (w' & Hrun & _ & _ & _ & Hout & _).
  exists w', (length (loggers w)). split; [exact Hrun|].
  rewrite Hout. unfold sink_calls_of. rewrite Hsup. simpl.
  unfold printed_by, std_log_line. simpl.
  destruct (log_function l); [|done].
  simpl. by destruct (String.eqb (prefix l) "").
Qed.

Lemma log_prints_one_line_witness :
  ∃ w' child,
    Logger_log 0 (VStr "step") initial_world = (w', Return child)
    ∧ stdout w' = ["[GLOBAL] step"%string].
Proof.
  exact (log_prints_one_line initial_world 0%nat
           (mkLogger std_log_function "GLOBAL" 0 (SpaceIndent " ") None)
           [] 0 "step" eq_refl eq_refl eq_refl).
Defined.

Lemma str_endswith_colon_snoc (t : string) :
  str_endswith_colon (t ++ ":")%string = true.
Proof.
  induction t as [|c t IH]; [done|]. rewrite str_app_cons.
  simpl. destruct (t ++ ":")%string eqn:E; [|exact IH].
  by destruct t.
Qed.

Lemma str_drop_last_snoc (t : string) :
  str_drop_last (t ++ ":")%string = t.
Proof.
  induction t as [|c t IH]; [done|]. rewrite str_app_cons.
  simpl. destruct (t ++ ":")%string eqn:E; [by destruct t|].
  by rewrite IH.
Qed.

(** X9. Exactly one colon is taken from each end of a message.  A text
    [t] put between a leading and a trailing colon reaches the sink as
    [t], character for character, whatever colons [t] has itself; the
    message is rendered at the parent level and a new level is opened
    below it. *)
Theorem log_strips_one_colon_each_end w self l (ns : list Z) (x : Z)
    (t : string) :
  loggers w !! self = Some l →
  lists w !! nlist l = Some (ns ++ [x]) →
  t ≠ ""%string → t ≠ " "%string →
  ∃ w' child,
    Logger_log self (VStr (String ":" (t ++ ":"))) w = (w', Return child)
    ∧ calls w'
      = calls w
        ++ [mkSinkCall (log_function l) t (prefix l) ns (indent_type l)]
    ∧ stack_of w' self = Some (ns ++ [0]).
Proof.
  intros Hl Hns Hne Hsp.
  destruct (Logger_log_post w self l ns x (String ":" (t ++ ":")) Hl Hns)
    as (w' & Hrun & Hl' & Hns' & Hcalls & _).
  unfold stack_after_log, sink_calls_of, suppressed, stripped, has_trailing,
    render_stack, after_leading in Hns', Hcalls.
  simpl str_startswith_colon in Hns', Hcalls. simpl str_drop_first in *.
  cbv iota in Hns', Hcalls.
  rewrite str_endswith_colon_snoc, str_drop_last_snoc in *.
  apply String.eqb_neq in Hne. apply String.eqb_neq in Hsp.
  rewrite Hne, Hsp in Hcalls. simpl in Hcalls.
  exists w', (length (loggers w)). split; [exact Hrun|].
  split; [exact Hcalls|]. apply stack_of_Some. eauto.
Qed.

Lemma log_strips_one_colon_each_end_witness :
  ∃ w' child,
    Logger_log 0 (VStr ":::a::") demo_world = (w', Return child)
    ∧ calls w' = [mkSinkCall std_log_function "::a:" "T" [4] NumberedIndent]
    ∧ stack_of w' 0%nat = Some [4; 0].
Proof.
  apply (log_strips_one_colon_each_end demo_world 0%nat demo_logger [4] 7
           "::a:"); [reflexivity | reflexivity | discriminate..].
Defined.

(** ** Constructing loggers *)

Lemma Logger_init_given_run w p f i r :
  Logger_init p f i (Some r) w
  = (mkWorld (lists w) (loggers w ++ [mkLogger f p r i None])
       (logger_contextvar w) (calls w) (stdout w),
     Return (length (loggers w))).
Proof. reflexivity. Qed.

Lemma Logger_init_default_run w p f i :
  Logger_init p f i None w
  = (mkWorld (lists w ++ [[0]])
       (loggers w ++ [mkLogger f p (length (lists w)) i None])
       (logger_contextvar w) (calls w) (stdout w),
     Return (length (loggers w))).
Proof. reflexivity. Qed.

(** X10. A logger constructed with the [nlist] of another logger holds
    that very list: it starts with the other's stack, and from then on a
    [log] through either of the two moves the stack of both. *)
Theorem init_shares_given_list w self l (ns : list Z) (x : Z) p f i :
  loggers w !! self = Some l →
  lists w !! nlist l = Some (ns ++ [x]) →
  ∃ w1 twin,
    Logger_init p f i (Some (nlist l)) w = (w1, Return twin)
    ∧ loggers w !! twin = None
    ∧ stack_of w1 twin = Some (ns ++ [x])
    ∧ stack_of w1 self = Some (ns ++ [x])
    ∧ (∀ s, ∃ w2 child,
         Logger_log self (VStr s) w1 = (w2, Return child)
         ∧ stack_of w2 self = Some (stack_after_log ns x s)
         ∧ stack_of w2 twin = Some (stack_after_log ns x s))
    ∧ (∀ s, ∃ w2 child,
         Logger_log twin (VStr s) w1 = (w2, Return child)
         ∧ stack_of w2 twin = Some (stack_after_log ns x s)
         ∧ stack_of w2 self = Some (stack_after_log ns x s)).
Proof.
  intros Hl Hns.
  pose proof (lookup_lt_Some _ _ _ Hl) as Hlt.
  set (lt := mkLogger f p (nlist l) i None).
  set (w1 := mkWorld (lists w) (loggers w ++ [lt]) (logger_contextvar w)
               (calls w) (stdout w)).
  assert (Hl1 : loggers w1 !! self = Some l)
    by (simpl; by rewrite lookup_app_l).
  assert (Ht1 : loggers w1 !! length (loggers w) = Some lt)
    by (simpl; by apply list_lookup_middle).
  assert (Hns1 : lists w1 !! nlist l = Some (ns ++ [x])) by exact Hns.
  exists w1, (length (loggers w)).
  split; [apply Logger_init_given_run|].
  split; [by apply lookup_ge_None_2|].
  split; [apply stack_of_Some; eauto|].
  split; [apply stack_of_Some; eauto|]. split.
  - intros s.
    destruct (Logger_log_keeps w1 self l _ (VStr s) Hl1 Hns1)
      as (w2 & r & Hrun & Hkeep & _).
    destruct (Logger_log_post w1 self l ns x s Hl1 Hns1)
      as (w2' & Hrun' & Hl2 & Hns2 & _).
    rewrite Hrun' in Hrun. injection Hrun as <- <-.
    exists w2', (length (loggers w1)). split; [exact Hrun'|].
    split; apply stack_of_Some; [eauto|].
    exists lt. split; [by apply Hkeep | exact Hns2].
  - intros s.
    destruct (Logger_log_keeps w1 (length (loggers w)) lt _ (VStr s) Ht1 Hns1)
      as (w2 & r & Hrun & Hkeep & _).
    destruct (Logger_log_post w1 (length (loggers w)) lt ns x s Ht1 Hns1)
      as (w2' & Hrun' & Hl2 & Hns2 & _).
    rewrite Hrun' in Hrun. injection Hrun as <- <-.
    exists w2', (length (loggers w1)). split; [exact Hrun'|].
    split; apply stack_of_Some; [eauto|].
    exists l. split; [by apply Hkeep | exact Hns2].
Qed.

Lemma init_shares_given_list_witness :
  ∃ w1 twin,
    Logger_init "V" (other_log_function "memo") NoneIndent (Some 0%nat)
      demo_world = (w1, Return twin)
    ∧ stack_of w1 twin = Some [4; 7]
    ∧ ∃ w2 child,
        Logger_log twin (VStr "x:") w1 = (w2, Return child)
        ∧ stack_of w2 0%nat = Some [4; 8; 0].
Proof.
  destruct (init_shares_given_list demo_world 0%nat demo_logger [4] 7
              "V"%string (other_log_function "memo") NoneIndent
              eq_refl eq_refl)
    as (w1 & twin & Hinit & _ & Hst & _ & _ & Htwin).
  exists w1, twin. split; [exact Hinit|]. split; [exact Hst|].
  destruct (Htwin "x:"%string) as (w2 & child & Hrun & _ & Hself).
  exists w2, child. split; [exact Hrun | exact Hself].
Defined.

(** X11. A logger constructed without [nlist] gets a list of its own,
    [[0]], made at that moment: the stacks of the loggers that exist are
    not changed by its construction nor by any [log] through it, and no
    [log] through one of them changes its stack. *)
Theorem init_default_is_fresh w p f i :
  ∃ w1 new,
    Logger_init p f i None w = (w1, Return new)
    ∧ loggers w !! new = None
    ∧ stack_of w1 new = Some [0]
    ∧ (∀ other st, stack_of w other = Some st →
         stack_of w1 other = Some st
         ∧ (∀ v, ∃ w2 r, Logger_log new v w1 = (w2, r)
                         ∧ stack_of w2 other = Some st)
         ∧ (∀ v, ∃ w2 r, Logger_log other v w1 = (w2, r)
                         ∧ stack_of w2 new = Some [0])).
Proof.
  set (ln := mkLogger f p (length (lists w)) i None).
  set (w1 := mkWorld (lists w ++ [[0]]) (loggers w ++ [ln])
               (logger_contextvar w) (calls w) (stdout w)).
  assert (Hn1 : loggers w1 !! length (loggers w) = Some ln)
    by (simpl; by apply list_lookup_middle).
  assert (Hnl1 : lists w1 !! nlist ln = Some [0])
    by (simpl; by apply list_lookup_middle).
  assert (Hnew : stack_of w1 (length (loggers w)) = Some [0])
    by (apply stack_of_Some; eauto).
  exists w1, (length (loggers w)).
  split; [apply Logger_init_default_run|].
  split; [by apply lookup_ge_None_2|]. split; [exact Hnew|].
  intros other st Hst. apply stack_of_Some in Hst as (lo & Hlo & Hlst).
  pose proof (lookup_lt_Some _ _ _ Hlo) as Hlt.
  pose proof (lookup_lt_Some _ _ _ Hlst) as Hlt'.
  assert (Hlo1 : loggers w1 !! other = Some lo)
    by (simpl; by rewrite lookup_app_l).
  assert (Hlst1 : lists w1 !! nlist lo = Some st)
    by (simpl; by rewrite lookup_app_l).
  assert (Hst1 : stack_of w1 other = Some st)
    by (apply stack_of_Some; eauto).
  assert (Hne : nlist lo ≠ nlist ln) by (simpl; lia).
  split; [exact Hst1|]. split; intros v.
  - destruct (Logger_log_keeps w1 _ ln _ v Hn1 Hnl1)
      as (w2 & r & Hrun & _ & _ & Hframe).
    exists w2, r. split; [exact Hrun|]. by apply (Hframe other lo).
  - destruct (Logger_log_keeps w1 other lo _ v Hlo1 Hlst1)
      as (w2 & r & Hrun & _ & _ & Hframe).
    exists w2, r. split; [exact Hrun|].
    apply (Hframe _ ln); [exact Hn1 | by apply not_eq_sym | exact Hnew].
Qed.

Lemma init_default_is_fresh_witness :
  ∃ w1 new,
    Logger_init "V" std_log_function NoneIndent None demo_world
    = (w1, Return new)
    ∧ stack_of w1 new = Some [0]
    ∧ ∃ w2 r, Logger_log 0 (VStr "deep:") w1 = (w2, r)
              ∧ stack_of w2 new = Some [0].
Proof.
  destruct (init_default_is_fresh demo_world "V"%string std_log_function
              NoneIndent)
    as (w1 & new & Hinit & _ & Hst & Hothers).
  exists w1, new. split; [exact Hinit|]. split; [exact Hst|].
  destruct (Hothers 0%nat [4; 7] eq_refl) as (_ & _ & Hlog).
  exact (Hlog (VStr "deep:")).
Defined.

(** ** Entering and leaving *)

Lemma with_logger_run {A} (body : M A) w self l w2 (r : outcome A) l2
    (ns : list Z) (x : Z) p :
  loggers w !! self = Some l →
  body (fst (Logger_enter self w)) = (w2, r) →
  loggers w2 !! self = Some l2 →
  prev_logger l2 = Some p →
  lists w2 !! nlist l2 = Some (ns ++ [x]) →
  with_logger self body w
  = (mkWorld (<[nlist l2 := ns]> (lists w2)) (loggers w2) p (calls w2)
       (stdout w2), r).
Proof.
  intros Hl Hbody Hl2 Hprev Hns.
  unfold with_logger. unfold bind at 1.
  rewrite (Logger_enter_run _ _ _ Hl) in *. simpl in Hbody. rewrite Hbody.
  destruct r; unfold bind;
    rewrite (Logger_exit_run _ _ _ _ _ _ Hl2 Hns Hprev); reflexivity.
Qed.

(** X12. The two ways [__exit__] fails.  On a logger without a frame the
    deletion raises [IndexError] and nothing at all is changed, so the
    ambient logger is not restored.  On a logger that was never entered
    the last frame is deleted first and only then the missing
    [prev_logger] raises [AttributeError]: the frame is gone and the
    ambient logger is the one it was. *)
Theorem exit_failure_modes w self l (ns : list Z) :
  loggers w !! self = Some l →
  lists w !! nlist l = Some ns →
  (ns = [] → Logger_exit self w = (w, Raise IndexError))
  ∧ (∀ ns0 x, ns = ns0 ++ [x] → prev_logger l = None →
       Logger_exit self w
       = (set_list (nlist l) ns0 w, Raise (AttributeError "prev_logger"))
       ∧ stack_of (set_list (nlist l) ns0 w) self = Some ns0
       ∧ logger_contextvar (set_list (nlist l) ns0 w) = logger_contextvar w).
Proof.
  intros Hl Hns. split.
  - intros ->. unfold Logger_exit. unfold bind at 1.
    by rewrite (Logger_deindent_empty _ _ _ Hl Hns).
  - intros ns0 x -> Hprev. split; [|split; [|done]].
    + unfold Logger_exit. unfold bind at 1.
      rewrite (Logger_deindent_run _ _ _ _ _ Hl Hns).
      unfold bind, read_logger. simpl. by rewrite Hl, Hprev.
    + apply stack_of_Some. exists l. split; [exact Hl|].
      by eapply set_list_lookup.
Qed.

Lemma exit_failure_modes_witness :
  Logger_exit 0 (set_list 0 [] demo_world)
  = (set_list 0 [] demo_world, Raise IndexError)
  ∧ Logger_exit 0 demo_world
    = (set_list 0 [4] demo_world, Raise (AttributeError "prev_logger"))
  ∧ stack_of (set_list 0 [4] demo_world) 0%nat = Some [4].
Proof.
  destruct (exit_failure_modes (set_list 0 [] demo_world) 0%nat demo_logger []
              eq_refl eq_refl) as (Hempty & _).
  destruct (exit_failure_modes demo_world 0%nat demo_logger [4; 7]
              eq_refl eq_refl) as (_ & Hfresh).
  destruct (Hfresh [4] 7 eq_refl eq_refl) as (Hrun & Hst & _).
  split; [exact (Hempty eq_refl)|]. split; [exact Hrun | exact Hst].
Defined.

(** X13. A logger has one [prev_logger] slot, so entering it a second
    time while it is entered overwrites what the first [__enter__]
    saved.  After both scopes are left the ambient logger is that logger
    itself, not the logger that was ambient before the outer scope; each
    exit has deleted one frame and the outcome of the body is passed
    on. *)
Theorem reentered_logger_stays_ambient {A} w self l (ns : list Z) (x y : Z)
    (r : outcome A) :
  loggers w !! self = Some l →
  lists w !! nlist l = Some (ns ++ [x; y]) →
  ∃ w',
    with_logger self (with_logger self (fun w0 => (w0, r))) w = (w', r)
    ∧ logger_contextvar w' = self
    ∧ stack_of w' self = Some ns.
Proof.
  intros Hl Hns.
  pose proof (lookup_lt_Some _ _ _ Hl) as Hlt.
  pose proof (lookup_lt_Some _ _ _ Hns) as Hlt'.
  set (l1 := mkLogger (log_function l) (prefix l) (nlist l) (indent_type l)
               (Some (logger_contextvar w))).
  set (w1 := mkWorld (lists w) (<[self := l1]> (loggers w)) self (calls w)
               (stdout w)).
  assert (Hent : Logger_enter self w = (w1, Return tt))
    by by apply Logger_enter_run.
  assert (Hl1 : loggers w1 !! self = Some l1)
    by (simpl; by apply list_lookup_insert_eq).
  set (l2 := mkLogger (log_function l) (prefix l) (nlist l) (indent_type l)
               (Some self)).
  set (w2 := mkWorld (lists w) (<[self := l2]> (loggers w)) self (calls w)
               (stdout w)).
  assert (Hent1 : Logger_enter self w1 = (w2, Return tt)).
  { rewrite (Logger_enter_run _ _ _ Hl1). subst w1 w2. simpl.
    by rewrite list_insert_insert_eq. }
  assert (Hl2 : loggers w2 !! self = Some l2)
    by (simpl; by apply list_lookup_insert_eq).
  assert (Hinner : with_logger self (fun w0 => (w0, r)) w1
                   = (mkWorld (<[nlist l := ns ++ [x]]> (lists w))
                        (loggers w2) self (calls w) (stdout w), r)).
  { erewrite (with_logger_run _ w1 self l1 w2 r l2 (ns ++ [x]) y self);
      [reflexivity | exact Hl1 | by rewrite Hent1 | exact Hl2 | reflexivity |].
    simpl. rewrite <- app_assoc. exact Hns. }
  eexists. split.
  - eapply (with_logger_run _ w self l _ r l2 ns x self);
      [exact Hl | rewrite Hent; exact Hinner | exact Hl2 | reflexivity |].
    simpl. by apply list_lookup_insert_eq.
  - split; [reflexivity|]. apply stack_of_Some. exists l2. simpl.
    split; [exact Hl2|]. apply list_lookup_insert_eq.
    by rewrite length_insert.
Qed.

Lemma reentered_logger_stays_ambient_witness :
  let w := mkWorld [[0]; [4; 7; 9]]
             [mkLogger std_log_function "GLOBAL" 0 (SpaceIndent " ") None;
              mkLogger std_log_function "T" 1 NumberedIndent None]
             0 [] [] in
  ∃ w',
    with_logger 1 (with_logger 1 (fun w0 => (w0, Return (VInt 5)))) w
    = (w', Return (VInt 5))
    ∧ logger_contextvar w = 0%nat
    ∧ logger_contextvar w' = 1%nat
    ∧ stack_of w' 1%nat = Some [4].
Proof.
  intros w.
  destruct (reentered_logger_stays_ambient w 1%nat
              (mkLogger std_log_function "T" 1 NumberedIndent None)
              [4] 7 9 (Return (VInt 5)) eq_refl eq_refl)
    as (w' & Hrun & Hctx & Hst).
  exists w'. split; [exact Hrun|]. split; [reflexivity|].
  split; [exact Hctx | exact Hst].
Defined.

(** ** Instrumented calls *)







(** ** The assigned arguments *)

Lemma dom_dict_of_pairs (pairs : list (string * pyval)) :
  dom (dict_of_pairs pairs) = (list_to_set (pairs.*1) : gset string).
Proof.
  induction pairs as [|[k v] pairs IH] using rev_ind; [apply dom_empty_L|].
  rewrite dict_of_pairs_snoc, dom_insert_L, IH, fmap_app. simpl.
  rewrite list_to_set_snoc_L. apply (comm_L (∪)).
Qed.

Lemma fst_zip_take (names : list string) (args : list pyval) :
  (zip names args).*1 = take (length args) names.
Proof.
  revert args. induction names as [|k names IH]; intros [|a args]; simpl;
    try done.
  by rewrite IH.
Qed.

(** X16. The keys of the mapping a message function receives are the
    names of the keyword arguments together with the declared parameters
    that have a positional argument, and no others: a positional argument
    beyond the declared parameters is bound to nothing, and a parameter
    without an argument is not a key. *)
Theorem assigned_args_keys (names : list string) (args : list pyval)
    (kwargs : gmap string pyval) :
  dom (assigned_args names args kwargs)
  = dom kwargs ∪ list_to_set (take (length args) names)
  ∧ assigned_args names args kwargs
    = assigned_args names (take (length names) args) kwargs
  ∧ assigned_args names args kwargs
    = assigned_args (take (length args) names) args kwargs.
Proof.
  unfold assigned_args, dict_or. split; [|split].
  - by rewrite dom_union_L, dom_dict_of_pairs, fst_zip_take.
  - do 2 f_equal. symmetry. apply zip_with_take_r.
  - do 2 f_equal. symmetry. apply zip_with_take_l.
Qed.

(** ** Programs of lines and instrumented calls *)

Example outline_of_a_program :
  stdout (fst (run_items
                 [Line "start";
                  Call "load" [Line "open"; Call "parse" [Line "header"];
                               Line "close"];
                  Line "done"]
                 (mkWorld [[0]]
                    [mkLogger std_log_function "" 0 NumberedIndent None]
                    0 [] [])))
  = ["1. start"; "2. load"; "2. 1. open"; "2. 2. parse"; "2. 2. 1. header";
     "2. 3. close"; "3. done"]%string.
Proof. reflexivity. Qed.

Lemma item_ind_nested (P : item → Prop) :
  (∀ t, P (Line t)) →
  (∀ s body, Forall P body → P (Call s body)) →
  ∀ it, P it.
Proof.
  intros HLine HCall. fix IH 1. intros [t|s body]; [apply HLine|].
  apply HCall. induction body as [|it body IHbody]; constructor;
    [apply IH | exact IHbody].
Qed.

Lemma run_items_runs_to (its : list item) :
  Forall (λ it, ∀ w a la (stack : list Z) k,
            logger_contextvar w = a → loggers w !! a = Some la →
            lists w !! nlist la = Some (stack ++ [k]) → plain it = true →
            runs_to (run_item it) tt w a la stack k 1
              (outline_item (sink_call_of la) (stack ++ [k + 1]) it)) its →
  ∀ w a la (stack : list Z) k,
    logger_contextvar w = a → loggers w !! a = Some la →
    lists w !! nlist la = Some (stack ++ [k]) → forallb plain its = true →
    runs_to (run_items its) tt w a la stack k (length its)
      (outline_items (sink_call_of la) stack k its).
Proof.
  induction 1 as [|it its Hit _ IH]; intros w a la stack k Ha Hl Hns Hplain.
  - exists w. simpl. rewrite Z.add_0_r, app_nil_r. done.
  - simpl in Hplain. apply andb_true_iff in Hplain as [Hp Hps].
    destruct (Hit w a la stack k Ha Hl Hns Hp)
      as (w1 & Hrun1 & Ha1 & Hkeep1 & Hother1 & Hns1 & Hcalls1).
    rewrite Z.add_comm in Hns1. simpl in Hns1. rewrite Z.add_comm in Hns1.
    destruct (IH w1 a la stack (k + 1) Ha1 (Hkeep1 _ _ Hl) Hns1 Hps)
      as (w2 & Hrun2 & Ha2 & Hkeep2 & Hother2 & Hns2 & Hcalls2).
    exists w2. split; [|split; [exact Ha2|split; [|split; [|split]]]].
    + change (run_items (it :: its)) with (run_item it ;;; run_items its).
      unfold bind. by rewrite Hrun1.
    + intros i li Hi. by apply Hkeep2, Hkeep1.
    + intros r0 lr Hne Hr0. apply Hother2; [done|]. by apply Hother1.
    + rewrite Hns2. do 3 f_equal. simpl length. lia.
    + rewrite Hcalls2, Hcalls1, <- app_assoc. reflexivity.
Qed.

Lemma run_item_runs_to (it : item) :
  ∀ w a la (stack : list Z) k,
    logger_contextvar w = a → loggers w !! a = Some la →
    lists w !! nlist la = Some (stack ++ [k]) → plain it = true →
    runs_to (run_item it) tt w a la stack k 1
      (outline_item (sink_call_of la) (stack ++ [k + 1]) it).
Proof.
  induction it as [t|s body IHbody] using item_ind_nested;
    intros w a la stack k Ha Hl Hns Hplain.
  - simpl in Hplain.
    destruct (Logger_log_post w a la stack k t Hl Hns)
      as (w1 & Hrun1 & Hl1 & Hns1 & Hcalls1 & _ & Hctx1 & _).
    destruct (Logger_log_keeps w a la _ (VStr t) Hl Hns)
      as (w1' & r1 & Hrun1' & Hkeep1 & Hother1 & _).
    rewrite Hrun1 in Hrun1'. injection Hrun1' as <- <-.
    rewrite (no_sigil_stack _ _ _ Hplain) in Hns1.
    rewrite (sink_calls_of_no_sigil _ _ _ _ Hplain) in Hcalls1.
    exists w1. split; [|split; [by rewrite Hctx1|]].
    + simpl. unfold bind.
      change (log (VStr t) w)
        with (Logger_log (logger_contextvar w) (VStr t) w).
      by rewrite Ha, Hrun1.
    + split; [exact Hkeep1|]. split; [exact Hother1|].
      split; [exact Hns1 | exact Hcalls1].
  - simpl in Hplain. apply andb_true_iff in Hplain as [Hs Hbody].
    pose proof (lookup_lt_Some _ _ _ Hl) as Hlt.
    pose proof (lookup_lt_Some _ _ _ Hns) as Hlt'.
    destruct (Logger_log_post w a la stack k s Hl Hns)
      as (w1 & Hrun1 & Hl1 & Hns1 & Hcalls1 & _ & Hctx1 & Hc1 & Hcs1).
    destruct (Logger_log_keeps w a la _ (VStr s) Hl Hns)
      as (w1' & r1 & Hrun1' & Hkeep1 & Hother1 & _).
    rewrite Hrun1 in Hrun1'. injection Hrun1' as <- <-.
    rewrite (no_sigil_stack _ _ _ Hs) in Hns1, Hcs1.
    rewrite (sink_calls_of_no_sigil _ _ _ _ Hs) in Hcalls1.
    set (level := stack ++ [k + 1]) in *.
    set (c := length (loggers w)) in *.
    set (lc := mkLogger (log_function la) (prefix la) (length (lists w))
                 (indent_type la) None) in *.
    pose proof (lookup_lt_Some _ _ _ Hc1) as Hclt.
    set (lc' := mkLogger (log_function la) (prefix la) (length (lists w))
                  (indent_type la) (Some (logger_contextvar w1))).
    set (we := mkWorld (lists w1) (<[c := lc']> (loggers w1)) c (calls w1)
                 (stdout w1)).
    assert (Hent : Logger_enter c w1 = (we, Return tt))
      by exact (Logger_enter_run w1 c lc Hc1).
    assert (Hce : loggers we !! c = Some lc')
      by (simpl; by apply list_lookup_insert_eq).
    assert (Hcse : lists we !! nlist lc' = Some (level ++ [0])) by exact Hcs1.
    assert (Hac : a ≠ c) by (subst c; lia).
    destruct (run_items_runs_to body IHbody we c lc' level 0 eq_refl Hce Hcse
                Hbody)
      as (w2 & Hrun2 & Hctx2 & Hkeep2 & Hother2 & Hcs2 & Hcalls2).
    assert (Hne : nlist la ≠ nlist lc') by (simpl; lia).
    set (d := mkFunc [] false
                (fun _ _ => run_items_with run_item body ;;; ret VNone)).
    assert (Hwith : with_logger c (func_call d [] ∅) w1
                    = (mkWorld (<[nlist lc' := level]> (lists w2))
                         (loggers w2) (logger_contextvar w1) (calls w2)
                         (stdout w2), Return VNone)).
    { apply (with_logger_run _ w1 c lc w2 (Return VNone) lc' level
               (0 + Z.of_nat (length body)) (logger_contextvar w1));
        [exact Hc1 | | by apply Hkeep2 | reflexivity | exact Hcs2].
      rewrite Hent. simpl. unfold bind at 1.
      change (run_items_with run_item body) with (run_items body).
      by rewrite Hrun2. }
    assert (Hwrap : wrapper (Message (VStr s)) d [] ∅ w
                    = (mkWorld (<[nlist lc' := level]> (lists w2))
                         (loggers w2) (logger_contextvar w1) (calls w2)
                         (stdout w2), Return VNone)).
    { unfold wrapper. unfold bind at 1. unfold ret at 1. cbv beta iota.
      unfold bind at 1.
      change (log (VStr s) w)
        with (Logger_log (logger_contextvar w) (VStr s) w).
      rewrite Ha, Hrun1. exact Hwith. }
    eexists. split.
    + simpl run_item. fold d. unfold bind at 1.
      change (log_decorator (Message (VStr s)) d [] ∅)
        with (wrapper (Message (VStr s)) d [] ∅).
      rewrite Hwrap. reflexivity.
    + simpl. split; [by rewrite Hctx1|]. split; [|split; [|split]].
      * intros i li Hi. apply Hkeep2. simpl.
        pose proof (lookup_lt_Some _ _ _ Hi).
        rewrite list_lookup_insert_ne by (subst c; lia). by apply Hkeep1.
      * intros r0 lr Hne0 Hr0. pose proof (lookup_lt_Some _ _ _ Hr0).
        rewrite list_lookup_insert_ne by lia.
        apply Hother2; [simpl; lia|]. by apply Hother1.
      * rewrite list_lookup_insert_ne by by apply not_eq_sym.
        by apply Hother2; [by apply not_eq_sym|].
      * rewrite Hcalls2. simpl. rewrite Hcalls1, <- app_assoc. reflexivity.
Qed.

(** X17. A program of plain lines and instrumented calls, nested to any
    depth and without sigils in its messages, prints an outline.  Run
    with an ambient logger that holds [stack ++ [k]], it returns; every
    message reaches the sink, in the order of the program, each line and
    each call numbered [k + 1], [k + 2], ... at the level of the ambient
    logger and the items of the body of a call numbered from 1 one level
    below the line of that call.  Afterwards the ambient logger is the
    one it was and its counter has advanced by the number of top-level
    items, whatever their bodies logged. *)
Theorem program_outline w a la (stack : list Z) (k : Z) (its : list item) :
  logger_contextvar w = a →
  loggers w !! a = Some la →
  lists w !! nlist la = Some (stack ++ [k]) →
  forallb plain its = true →
  ∃ w',
    run_items its w = (w', Return tt)
    ∧ logger_contextvar w' = a
    ∧ stack_of w' a = Some (stack ++ [k + Z.of_nat (length its)])
    ∧ calls w' = calls w ++ outline_items (sink_call_of la) stack k its.
Proof.
  intros Ha Hl Hns Hplain.
  destruct (run_items_runs_to its) with (w := w) (a := a) (la := la)
    (stack := stack) (k := k)
    as (w' & Hrun & Hctx & Hkeep & _ & Hns' & Hcalls); try done.
  { apply Forall_forall. intros it _. apply run_item_runs_to. }
  exists w'. split; [exact Hrun|]. split; [exact Hctx|].
  split; [|exact Hcalls]. apply stack_of_Some. exists la.
  split; [by apply Hkeep | exact Hns'].
Qed.

Lemma program_outline_witness :
  ∃ w',
    run_items [Line "a"; Call "f" [Line "b"; Call "g" []]; Line "c"]
      demo_world
    = (w', Return tt)
    ∧ logger_contextvar w' = 0%nat
    ∧ stack_of w' 0%nat = Some [4; 10]
    ∧ calls w'
      = [mkSinkCall std_log_function "a" "T" [4; 8] NumberedIndent;
         mkSinkCall std_log_function "f" "T" [4; 9] NumberedIndent;
         mkSinkCall std_log_function "b" "T" [4; 9; 1] NumberedIndent;
         mkSinkCall std_log_function "g" "T" [4; 9; 2] NumberedIndent;
         mkSinkCall std_log_function "c" "T" [4; 10] NumberedIndent].
Proof.
  exact (program_outline demo_world 0%nat demo_logger [4] 7
           [Line "a"; Call "f" [Line "b"; Call "g" []]; Line "c"]
           eq_refl eq_refl eq_refl eq_refl).
Defined.
